(** * Gauss-Jacobi quadrature on simplices (libtab, quadrature.cpp)

    A shallow embedding of the quadrature-rule construction:
    [compute_jacobi], [compute_gauss_jacobi_points],
    [compute_gauss_jacobi_rule], the collapsed rules on the line, the
    triangle and the tetrahedron, and the two [make_quadrature] entry
    points.

    Conventions.
    - [double] is IEEE binary64 (Rocq's primitive floats); the arithmetic
      the source file writes itself ([+], [-], [*], [/], [fabs], [<]) is
      evaluated in source order, round to nearest.
    - What the source delegates to a library is an interface: the C maths
      library ([cos], [pow], [tgamma]), Eigen's reductions ([norm],
      [determinant], [cross], the vector-matrix product) and the
      [Polynomial] class of polynomial.h.  Every general theorem holds for
      all implementations of these interfaces.
    - [int] counters that only range over [0 .. m] are [nat]; [int] values
      that enter arithmetic are [Z].  The sums and products that
      [compute_jacobi] forms on [int] wrap modulo 2^32, as the machine's
      two's-complement arithmetic does; array sizes and counters are taken
      within the range of [int].
    - [std::vector] and Eigen arrays are lists updated in place by index;
      a dynamic 2-D array is its column count and its list of rows
      (row-major, as in the source). *)

From Stdlib Require Import ZArith Floats String.
From stdpp Require Import base list.

Set Warnings "-inexact-float".

Abbreviation double := float (only parsing).

(** ** Conversions between [int] and [double] *)

(** [int] to [double]: exact for every 32-bit value. *)
Definition of_int (z : Z) : double :=
  if (z <? 0)%Z then (- of_uint63 (Uint63.of_Z (- z)))%float
  else of_uint63 (Uint63.of_Z z).

(** [double] to [int]: truncation towards zero (the implicit conversion at
    the call [compute_jacobi(a, m)] with [double a]).  Not-a-number and the
    infinities, where C++ leaves the conversion undefined, give 0. *)
Definition to_int (d : double) : Z :=
  match Prim2SF d with
  | S754_finite s m e =>
      let v := Z.shiftl (Z.pos m) e in
      if s then (- v)%Z else v
  | _ => 0%Z
  end.

(** ** Arithmetic on [int] *)

Definition INT_MAX : Z := 2147483647.

(** The value of a 32-bit two's-complement [int] operation whose exact
    result is [z]. *)
Definition int_wrap (z : Z) : Z := ((z + 2 ^ 31) mod 2 ^ 32 - 2 ^ 31)%Z.

(** ** Counted loops *)

Section Loops.
Context {St : Type}.

(** [for (int i = 0; i < n; ++i) body], as a state transformer. *)
Fixpoint for_loop (n : nat) (body : nat -> St -> St) (s : St) : St :=
  match n with
  | O => s
  | S n' => body n' (for_loop n' body s)
  end.

(** [for (int k = lo; k < hi; ++k) body]. *)
Definition for_range (lo hi : nat) (body : nat -> St -> St) (s : St) : St :=
  for_loop (hi - lo) (fun i => body (lo + i)) s.
End Loops.

(** ** Dynamic two-dimensional arrays *)

Record ArrayXX := mkArrayXX {
  cols : nat;
  row_list : list (list double)
}.

Definition rows (A : ArrayXX) : nat := length (row_list A).

(** [A.row(i)] *)
Definition row (A : ArrayXX) (i : nat) : list double := nth i (row_list A) [].

(** [A.row(i) = r] and [A.row(i) << ...] *)
Definition set_row (A : ArrayXX) (i : nat) (r : list double) : ArrayXX :=
  mkArrayXX (cols A) (<[i := r]> (row_list A)).

(** [Array(r, c)]: storage of [r] rows and [c] columns, every coefficient
    of which is assigned before it is read. *)
Definition alloc (r c : nat) : ArrayXX :=
  mkArrayXX c (replicate r (replicate c 0%float)).

(** A one-dimensional array converted to a dynamic two-dimensional one
    (a single column). *)
Definition as_column (v : list double) : ArrayXX :=
  mkArrayXX 1 (map (fun x => [x]) v).

Definition well_formed (A : ArrayXX) : Prop :=
  Forall (fun r => length r = cols A) (row_list A).

(** ** Library interfaces *)

(** <cmath> *)
Class Libm := {
  c_cos : double -> double;
  c_pow : double -> double -> double;
  c_tgamma : double -> double
}.

(** Eigen's reductions.  [eigen_norm] takes the coefficients of a vector or
    matrix in storage order; [eigen_rowmul v M] is the row vector [v]
    times the matrix [M]. *)
Class Eigen := {
  eigen_norm : list double -> double;
  eigen_determinant : ArrayXX -> double;
  eigen_cross : list double -> list double -> list double;
  eigen_rowmul : list double -> ArrayXX -> list double
}.

(** polynomial.h: the operations of class [Polynomial] that quadrature.cpp
    uses. *)
Class PolynomialOps (P : Type) := {
  poly_default : P;                       (* Polynomial() *)
  poly_one : Z -> P;                      (* Polynomial::one(N) *)
  poly_x : Z -> P;                        (* Polynomial::x(N) *)
  poly_add : P -> P -> P;
  poly_sub : P -> P -> P;
  poly_mul : P -> P -> P;
  poly_scale : P -> double -> P;          (* operator*(double) *)
  poly_diff : P -> Z -> P;                (* diff(axis) *)
  poly_tabulate : P -> double -> double
}.

Declare Scope poly_scope.
Delimit Scope poly_scope with poly.
Infix "⊞" := poly_add (at level 50, left associativity) : poly_scope.
Infix "⊟" := poly_sub (at level 50, left associativity) : poly_scope.
Infix "⊠" := poly_mul (at level 40, left associativity) : poly_scope.
Infix "⊡" := poly_scale (at level 40, left associativity) : poly_scope.

(** ** Effects of the simplex entry point

    [make_quadrature(simplex, m)] throws [std::runtime_error], stops on a
    failed assertion, and prints the edge matrix and the scale factor on
    [std::cout]. *)

Inductive Event :=
  | PrintBvec (bvec : ArrayXX)
  | PrintScale (scale : double).

Inductive Outcome (A : Type) :=
  | Returned (a : A)
  | Thrown (what : string)
  | Aborted.
Arguments Returned {A} a.
Arguments Thrown {A} what.
Arguments Aborted {A}.

(** A computation reads the text already on [std::cout] and appends to it. *)
Definition IO (A : Type) : Type := list Event -> Outcome A * list Event.

Definition ret {A} (a : A) : IO A := fun out => (Returned a, out).

Definition bind {A B} (c : IO A) (k : A -> IO B) : IO B :=
  fun out =>
    match c out with
    | (Returned a, out') => k a out'
    | (Thrown what, out') => (Thrown what, out')
    | (Aborted, out') => (Aborted, out')
    end.

Definition throw {A} (what : string) : IO A := fun out => (Thrown what, out).

Definition cout (e : Event) : IO unit := fun out => (Returned tt, out ++ [e]).

(** [assert(b)] *)
Definition cassert (b : bool) : IO unit :=
  fun out => if b then (Returned tt, out) else (Aborted, out).

Notation "x <- c ;; k" := (bind c (fun x => k))
  (at level 100, c at next level, right associativity).
Notation "c ;; k" := (bind c (fun _ => k))
  (at level 100, right associativity).

(** ** The quadrature rules *)

Definition M_PI : double := 3.14159265358979323846%float.
Definition eps : double := 1e-8%float.
Definition max_iter : nat := 100.

Section Quadrature.
Context {libm : Libm} {eigen : Eigen} {P : Type} {poly : PolynomialOps P}.
Local Open Scope float_scope.

(** Lines 12-36.  [k + a] and [a * a] are operations on [int]. *)
Definition compute_jacobi (a : Z) (n : nat) : P :=
  let x := poly_x 1 in
  let one := poly_one 1 in
  let Jn := replicate (n + 1) poly_default in
  let Jn := <[0%nat := one]> Jn in
  let Jn :=
    if (0 <? n)%nat
    then <[1%nat := ((one ⊡ of_int a ⊞ x ⊡ (of_int a + 2.0)) ⊡ 0.5)%poly]> Jn
    else Jn in
  let Jn :=
    for_range 2 (n + 1) (fun k Jn =>
      let kz := Z.of_nat k in
      let a1 := 2.0 * of_int kz * of_int (int_wrap (kz + a))
                * (2.0 * of_int kz + of_int a - 2.0) in
      let a2 := (2.0 * of_int kz + of_int a - 1.0) * of_int (int_wrap (a * a)) in
      let a3 := (2.0 * of_int kz + of_int a - 2.0)
                * (2.0 * of_int kz + of_int a - 1.0)
                * (2.0 * of_int kz + of_int a) in
      let a4 := 2.0 * (of_int (int_wrap (kz + a)) - 1.0) * (of_int kz - 1.0)
                * (2.0 * of_int kz + of_int a) in
      let a2 := a2 / a1 in
      let a3 := a3 / a1 in
      let a4 := a4 / a1 in
      <[k := (nth (k - 1) Jn poly_default ⊠ ((one ⊡ a2) ⊞ (x ⊡ a3))
              ⊟ nth (k - 2) Jn poly_default ⊡ a4)%poly]> Jn) Jn in
  nth n Jn poly_default.

(** Lines 61-63: the deflation sum over the roots already found. *)
Definition deflation (x : list double) (k : nat) : double :=
  for_loop k (fun i s => s + 1.0 / (nth k x 0 - nth i x 0)) 0.

(** Lines 58-72: the Newton loop for root [k].  [budget] is
    [max_iter - j], the number of times the test [j < max_iter] can still
    succeed.  Besides the array the loop returns the successive values of
    [delta], one for each execution of its body. *)
Fixpoint newton (budget : nat) (J Jd : P) (k : nat) (x : list double)
  : list double * list double :=
  match budget with
  | O => (x, [])
  | S budget' =>
      let s := deflation x k in
      let f := poly_tabulate J (nth k x 0) in
      let fp := poly_tabulate Jd (nth k x 0) in
      let delta := f / (fp - f * s) in
      let x := <[k := nth k x 0 - delta]> x in
      if abs delta <? eps then (x, [delta])
      else let '(x', deltas) := newton budget' J Jd k x in (x', delta :: deltas)
  end.

(** Lines 38-76, with the list of [delta] sequences, one per root. *)
Definition gauss_jacobi_points_run (a : double) (m : nat)
  : list double * list (list double) :=
  let J := compute_jacobi (to_int a) m in
  let Jd := poly_diff J 0 in
  for_loop m (fun k '(x, runs) =>
    let x := <[k := - c_cos ((2.0 * of_int (Z.of_nat k) + 1.0) * M_PI
                             / (2.0 * of_int (Z.of_nat m)))]> x in
    let x := if (0 <? k)%nat
             then <[k := 0.5 * (nth k x 0 + nth (k - 1) x 0)]> x
             else x in
    let '(x, deltas) := newton max_iter J Jd k x in
    (x, runs ++ [deltas]))
    (replicate m 0, []).

Definition compute_gauss_jacobi_points (a : double) (m : nat) : list double :=
  fst (gauss_jacobi_points_run a m).

Definition newton_updates (a : double) (m : nat) : list (list double) :=
  snd (gauss_jacobi_points_run a m).

(** Lines 78-102. *)
Definition compute_gauss_jacobi_rule (a : double) (m : nat)
  : list double * list double :=
  let pts := compute_gauss_jacobi_points a m in
  let Jd := poly_diff (compute_jacobi (to_int a) m) 0 in
  let a1 := c_pow 2.0 (a + 1.0) in
  let a3 := c_tgamma (of_int (Z.of_nat m) + 1.0) in
  let a5 := for_loop m (fun i a5 => a5 * of_int (Z.of_nat i + 1)) 1.0 in
  let a6 := a1 * a3 / a5 in
  let wts :=
    for_loop m (fun i wts =>
      let x := nth i pts 0 in
      let f := poly_tabulate Jd x in
      <[i := a6 / (1.0 - x * x) / (f * f)]> wts) (replicate m 0) in
  (pts, wts).

(** Lines 104-110. *)
Definition make_quadrature_line (m : nat) : list double * list double :=
  let '(ptx, wx) := compute_gauss_jacobi_rule 0.0 m in
  let pts := map (fun x => 0.5 * (x + 1.0)) ptx in
  let wts := map (fun w => w * 0.5) wx in
  (pts, wts).

(** Lines 112-134. *)
Definition make_quadrature_triangle_collapsed (m : nat)
  : ArrayXX * list double :=
  let '(ptx, wx) := compute_gauss_jacobi_rule 0.0 m in
  let '(pty, wy) := compute_gauss_jacobi_rule 1.0 m in
  let pts := alloc (m * m) 2 in
  let wts := replicate (m * m) 0 in
  let '(_, pts, wts) :=
    for_loop m (fun i st =>
      for_loop m (fun j '(idx, pts, wts) =>
        let x := 0.25 * (1.0 + nth i ptx 0) * (1.0 - nth j pty 0) in
        let y := 0.5 * (1.0 + nth j pty 0) in
        let pts := set_row pts idx [x; y] in
        let wts := <[idx := nth i wx 0 * nth j wy 0 * 0.125]> wts in
        (S idx, pts, wts)) st)
      (O, pts, wts) in
  (pts, wts).

(** Lines 136-162. *)
Definition make_quadrature_tetrahedron_collapsed (m : nat)
  : ArrayXX * list double :=
  let '(ptx, wx) := compute_gauss_jacobi_rule 0.0 m in
  let '(pty, wy) := compute_gauss_jacobi_rule 1.0 m in
  let '(ptz, wz) := compute_gauss_jacobi_rule 2.0 m in
  let pts := alloc (m * m * m) 3 in
  let wts := replicate (m * m * m) 0 in
  let '(_, pts, wts) :=
    for_loop m (fun i st =>
      for_loop m (fun j st =>
        for_loop m (fun k '(idx, pts, wts) =>
          let x := 0.125 * (1.0 + nth i ptx 0) * (1.0 - nth j pty 0)
                   * (1.0 - nth k ptz 0) in
          let y := 0.25 * (1.0 + nth j pty 0) * (1.0 - nth k ptz 0) in
          let z := 0.5 * (1.0 + nth k ptz 0) in
          let pts := set_row pts idx [x; y; z] in
          let wts := <[idx := nth i wx 0 * nth j wy 0 * nth k wz 0
                              * 0.125 * 0.125]> wts in
          (S idx, pts, wts)) st) st)
      (O, pts, wts) in
  (pts, wts).

(** Lines 164-174: the reference-cell entry point.  The line rule is
    converted to the dynamic two-dimensional return type. *)
Definition make_quadrature (dim : Z) (m : nat) : ArrayXX * list double :=
  if (dim =? 1)%Z then
    let '(pts, wts) := make_quadrature_line m in (as_column pts, wts)
  else if (dim =? 2)%Z then make_quadrature_triangle_collapsed m
  else make_quadrature_tetrahedron_collapsed m.

(** [Eigen::Vector3d a = r]: Eigen asserts that a fixed-size vector is
    assigned exactly three coefficients. *)
Definition vector3d (r : list double) : IO (list double) :=
  cassert (length r =? 3)%nat ;; ret r.

(** Lines 188-192: the edge vectors of the simplex, one per row. *)
Definition edge_vectors (simplex : ArrayXX) (dim : nat) : ArrayXX :=
  for_loop dim (fun i bvec =>
    set_row bvec i
      (zip_with PrimFloat.sub (row simplex (i + 1)) (row simplex 0)))
    (alloc dim (cols simplex)).

(** Lines 196-222: the reference rule and the scale factor. *)
Definition rule_and_scale (dim : Z) (bvec : ArrayXX) (m : nat)
  : IO (ArrayXX * list double * double) :=
  if (dim =? 1)%Z then
    let '(Qpts, Qwts) := make_quadrature_line m in
    ret (as_column Qpts, Qwts, eigen_norm (concat (row_list bvec)))
  else if (dim =? 2)%Z then
    let '(Qpts, Qwts) := make_quadrature_triangle_collapsed m in
    if (cols bvec =? 2)%nat then
      ret (Qpts, Qwts, eigen_determinant bvec)
    else
      a <- vector3d (row bvec 0) ;;
      b <- vector3d (row bvec 1) ;;
      ret (Qpts, Qwts, eigen_norm (eigen_cross a b))
  else
    let '(Qpts, Qwts) := make_quadrature_tetrahedron_collapsed m in
    cassert (cols bvec =? 3)%nat ;;
    ret (Qpts, Qwts, eigen_determinant bvec).

(** Lines 226-236: the weights times the scale factor, and the points
    mapped to the simplex. *)
Definition rescale (simplex bvec Qpts : ArrayXX) (Qwts : list double)
    (scale : double) : ArrayXX * list double :=
  let Qwts_scaled := map (fun w => w * scale) Qwts in
  let Qpts_scaled :=
    for_loop (rows Qpts) (fun i Q =>
      let s := eigen_rowmul (row Qpts i) bvec in
      set_row Q i (zip_with PrimFloat.add (row simplex 0) s))
      (alloc (rows Qpts) (cols bvec)) in
  (Qpts_scaled, Qwts_scaled).

(** Lines 176-237: the simplex entry point. *)
Definition make_quadrature_simplex (simplex : ArrayXX) (m : nat)
  : IO (ArrayXX * list double) :=
  let dim := (Z.of_nat (rows simplex) - 1)%Z in
  if ((dim <? 1) || (dim >? 3))%Z then throw "Unsupported dim"
  else if (Z.of_nat (cols simplex) <? dim)%Z then throw "Invalid simplex"
  else
    let bvec := edge_vectors simplex (Z.to_nat dim) in
    cout (PrintBvec bvec) ;;
    rule <- rule_and_scale dim bvec m ;;
    let '(Qpts, Qwts, scale) := rule in
    cout (PrintScale scale) ;;
    ret (rescale simplex bvec Qpts Qwts scale).
End Quadrature.

(** ** The specification's formulas *)

Section Specification.
Context {libm : Libm} {eigen : Eigen} {P : Type} {poly : PolynomialOps P}.
Local Open Scope float_scope.



(** m! as the explicit product 1 * 1 * 2 * ... * m. *)
Definition factorial_product (m : nat) : double :=
  fold_left (fun acc i => acc * of_int (Z.of_nat i)) (seq 1 m) 1.0.

(** The test of line 69: [fabs(delta) < eps]. *)
Definition small (delta : double) : bool := abs delta <? eps.

(** A sequence of Newton updates respects the stopping rule: an update of
    magnitude below [eps] is the last one, at most [max_iter] updates are
    made, and the sequence is cut short only by such an update. *)
Definition respects_stopping_rule (deltas : list double) : Prop :=
  (1 <= length deltas <= max_iter)%nat
  /\ (forall i delta, deltas !! i = Some delta -> small delta = true ->
        length deltas = S i)
  /\ ((length deltas < max_iter)%nat ->
        exists delta, last deltas = Some delta /\ small delta = true).

(** Edge vector [i] of a simplex: vertex [i + 1] minus vertex 0. *)
Definition edge (simplex : ArrayXX) (i : nat) : list double :=
  zip_with PrimFloat.sub (row simplex (i + 1)) (row simplex 0).

(** The matrix of the first [dim] edge vectors. *)
Definition edge_matrix (simplex : ArrayXX) (dim : nat) : ArrayXX :=
  mkArrayXX (cols simplex) (map (edge simplex) (seq 0 dim)).

(** The scale factor of a simplex with [rows simplex = dim + 1] vertices
    of [cols simplex] coordinates, where the specification defines one. *)
Definition simplex_scale (simplex : ArrayXX) : option double :=
  match rows simplex, cols simplex with
  | 2, S _ => Some (eigen_norm (edge simplex 0))
  | 3, 2 => Some (eigen_determinant (edge_matrix simplex 2))
  | 3, 3 => Some (eigen_norm (eigen_cross (edge simplex 0) (edge simplex 1)))
  | 4, 3 => Some (eigen_determinant (edge_matrix simplex 3))
  | _, _ => None
  end%nat.

(** The invalid-argument condition of the simplex entry point. *)
Definition invalid_simplex (simplex : ArrayXX) : Prop :=
  let dim := (Z.of_nat (rows simplex) - 1)%Z in
  (dim < 1 \/ 3 < dim \/ Z.of_nat (cols simplex) < dim)%Z.

(** The reference rule that the simplex entry point rescales. *)
Definition reference_rule (simplex : ArrayXX) (m : nat) : ArrayXX * list double :=
  make_quadrature (Z.of_nat (rows simplex) - 1) m.

(** vertex 0 + reference point * edge matrix, for every reference point. *)
Definition mapped_points (simplex : ArrayXX) (Qpts : ArrayXX) : ArrayXX :=
  mkArrayXX (cols simplex)
    (map (fun p => zip_with PrimFloat.add (row simplex 0)
                     (eigen_rowmul p (edge_matrix simplex (rows simplex - 1))))
         (row_list Qpts)).

(** The sum of the weights of a rule. *)
Definition total (v : list double) : double := fold_left PrimFloat.add v 0.

(** The shapes on which the simplex entry point returns: a segment, a
    triangle of two or three coordinates, a tetrahedron of three. *)
Definition supported_shape (simplex : ArrayXX) : Prop :=
  (rows simplex = 2 \/ (rows simplex = 3 /\ (cols simplex = 2 \/ cols simplex = 3))
   \/ (rows simplex = 4 /\ cols simplex = 3))%nat.

(** The value of [scale] that a call prints at line 224, if it gets
    there. *)
Definition printed_scale (simplex : ArrayXX) (m : nat) : option double :=
  match snd (make_quadrature_simplex simplex m []) with
  | [_; PrintScale scale] => Some scale
  | _ => None
  end.
End Specification.

(** A computation whose outcome and printed text do not depend on what is
    already on the stream. *)
Definition output_only {A} (c : IO A) : Prop :=
  exists o printed, forall out, c out = (o, out ++ printed).

(** ** Loop invariants *)

Section LoopInvariants.
Context {P : Type} {poly : PolynomialOps P}.
Local Open Scope float_scope.


(** The update that one execution of the loop body computes. *)
Definition newton_delta (J Jd : P) (k : nat) (x : list double) : double :=
  poly_tabulate J (nth k x 0)
  / (poly_tabulate Jd (nth k x 0) - poly_tabulate J (nth k x 0) * deflation x k).

(** State of the double loop of lines 122-131 after [n] executions of
    its body: entry [p < n] holds the values of the index pair
    [(p / m, p mod m)]. *)
Definition tensor_filled (f : nat -> nat -> list double)
    (g : nat -> nat -> double) (m c n : nat)
    (st : nat * ArrayXX * list double) : Prop :=
  let '(idx, pts, wts) := st in
  idx = n /\ rows pts = (m * m)%nat /\ cols pts = c
  /\ length wts = (m * m)%nat
  /\ forall p, (p < n)%nat ->
       row pts p = f (p / m)%nat (p mod m)%nat
       /\ nth p wts 0 = g (p / m)%nat (p mod m)%nat.
End LoopInvariants.

(** ** Initial guesses and the triple loop *)

Section Characterisations.
Context {libm : Libm}.
Local Open Scope float_scope.

(** Line 54: the Chebyshev point of index [k] among [m]. *)
Definition chebyshev (k m : nat) : double :=
  - c_cos ((2.0 * of_int (Z.of_nat k) + 1.0) * M_PI / (2.0 * of_int (Z.of_nat m))).

(** Lines 54-56: the initial guess for root [k], which for [k > 0] is the
    mean of the Chebyshev point and of root [k - 1] in the array [x]. *)
Definition initial_guess (x : list double) (k m : nat) : double :=
  if (0 <? k)%nat then 0.5 * (chebyshev k m + nth (k - 1) x 0)
  else chebyshev k m.

(** State of the triple loop of lines 147-159 after [n] executions of its
    body: entry [p < n] holds the values of the index triple
    [(p / m / m, p / m mod m, p mod m)]. *)
Definition tensor3_filled (f : nat -> nat -> nat -> list double)
    (g : nat -> nat -> nat -> double) (m c n : nat)
    (st : nat * ArrayXX * list double) : Prop :=
  let '(idx, pts, wts) := st in
  idx = n /\ rows pts = (m * m * m)%nat /\ cols pts = c
  /\ length wts = (m * m * m)%nat
  /\ forall p, (p < n)%nat ->
       row pts p = f (p / m / m)%nat (p / m mod m)%nat (p mod m)%nat
       /\ nth p wts 0 = g (p / m / m)%nat (p / m mod m)%nat (p mod m)%nat.
End Characterisations.

(** ** The weight formula for a real weight exponent *)

Section ClaimedWeight.
Context {libm : Libm} {P : Type} {poly : PolynomialOps P}.
Local Open Scope float_scope.

(** A [double] whose value is an integer in the range of [int]: the
    conversion to [int] at the call [compute_jacobi(a, m)] loses
    nothing. *)
Definition int_valued (a : double) : Prop :=
  of_int (to_int a) = a /\ (0 <= to_int a <= INT_MAX)%Z.

(** The Jacobi polynomial of degree [n] for a real weight exponent [a],
    by the recurrence J_0 = 1, J_1 = (a + x (a + 2)) / 2,
    J_k = J_(k-1) (a2 + x a3) - J_(k-2) a4, with a1 = 2k(k+a)(2k+a-2),
    a2 = (2k+a-1) a^2, a3 = (2k+a-2)(2k+a-1)(2k+a),
    a4 = 2(k+a-1)(k-1)(2k+a) and a2, a3, a4 divided by a1. *)
Fixpoint jacobi_of_weight (a : double) (n : nat) : P :=
  match n with
  | O => poly_one 1
  | S n' =>
      match n' with
      | O => ((poly_one 1 ⊡ a ⊞ poly_x 1 ⊡ (a + 2.0)) ⊡ 0.5)%poly
      | S n'' =>
          let k := of_int (Z.of_nat n) in
          let a1 := 2.0 * k * (k + a) * (2.0 * k + a - 2.0) in
          let a2 := (2.0 * k + a - 1.0) * (a * a) / a1 in
          let a3 := (2.0 * k + a - 2.0) * (2.0 * k + a - 1.0) * (2.0 * k + a) / a1 in
          let a4 := 2.0 * (k + a - 1.0) * (k - 1.0) * (2.0 * k + a) / a1 in
          (jacobi_of_weight a n' ⊠ (poly_one 1 ⊡ a2 ⊞ poly_x 1 ⊡ a3)
           ⊟ jacobi_of_weight a n'' ⊡ a4)%poly
      end
  end.

(** The weight [2^(a+1) m! / m!] / [(1 - x_i^2) J'(x_i)^2] with J the
    Jacobi polynomial of weight exponent [a] itself, the first factorial
    being [tgamma(m + 1)] and the second the explicit product. *)
Definition claimed_weight (a : double) (m i : nat) : double :=
  let x := nth i (compute_gauss_jacobi_points a m) 0 in
  let f := poly_tabulate (poly_diff (jacobi_of_weight a m) 0) x in
  c_pow 2.0 (a + 1.0) * c_tgamma (of_int (Z.of_nat m) + 1.0) / factorial_product m
  / ((1.0 - x * x) * (f * f)).
End ClaimedWeight.

(** ** Reference implementations of the library interfaces

    Used to evaluate the rules on concrete inputs. *)

Module Reference.
Local Open Scope float_scope.

(** The values of [cos], [pow] and [tgamma] at the arguments that the
    one-point rules (m = 1) reach: cos of the double nearest pi/2,
    2^1, 2^2, 2^3 and Gamma(2).  Other arguments are not tabulated. *)
Definition libm_one_point : Libm := {|
  c_cos x := if x =? 0x1.921fb54442d18p+0 then 0x1.1a62633145c07p-54 else nan;
  c_pow x y :=
    if x =? 2.0 then
      if y =? 1.0 then 2.0 else if y =? 2.0 then 4.0
      else if y =? 3.0 then 8.0 else nan
    else nan;
  c_tgamma x := if x =? 2.0 then 1.0 else nan
|}.

(** The same table with two more entries: 2^1.5, and Gamma(172), which
    exceeds the largest [double]. *)
Definition libm_table : Libm := {|
  c_cos := @c_cos libm_one_point;
  c_pow x y :=
    if (x =? 2.0) && (y =? 1.5) then 0x1.6a09e667f3bcdp+1
    else @c_pow libm_one_point x y;
  c_tgamma x := if x =? 172.0 then infinity else @c_tgamma libm_one_point x
|}.

(** Eigen's reductions in index order. *)
Definition norm (v : list double) : double :=
  sqrt (fold_left (fun s x => s + x * x) v 0).

Definition determinant (A : ArrayXX) : double :=
  match row_list A with
  | [[a; b]; [c; d]] => a * d - b * c
  | [[a; b; c]; [d; e; f]; [g; h; i]] =>
      a * (e * i - f * h) - b * (d * i - f * g) + c * (d * h - e * g)
  | _ => nan
  end.

Definition cross (a b : list double) : list double :=
  match a, b with
  | [a0; a1; a2], [b0; b1; b2] =>
      [a1 * b2 - a2 * b1; a2 * b0 - a0 * b2; a0 * b1 - a1 * b0]
  | _, _ => []
  end.

Definition dot (u v : list double) : double :=
  fold_left PrimFloat.add (zip_with PrimFloat.mul u v) 0.

Definition rowmul (v : list double) (A : ArrayXX) : list double :=
  map (fun j => dot v (map (fun r => nth j r 0) (row_list A))) (seq 0 (cols A)).

Definition eigen_in_order : Eigen := {|
  eigen_norm := norm;
  eigen_determinant := determinant;
  eigen_cross := cross;
  eigen_rowmul := rowmul
|}.

(** Modelled from the spec: class [Polynomial] of polynomial.h, which is
    not among the sources.  A univariate polynomial is its sequence of
    coefficients, constant term first; sum and difference are
    coefficient-wise, the product is the convolution of the coefficients,
    the derivative of a constant is the constant zero, and [tabulate]
    evaluates at a point. *)
Definition Polynomial : Type := list double.

Fixpoint add (p q : Polynomial) : Polynomial :=
  match p, q with
  | [], _ => q
  | _, [] => p
  | a :: p', b :: q' => (a + b) :: add p' q'
  end.

Fixpoint sub (p q : Polynomial) : Polynomial :=
  match p, q with
  | [], _ => map PrimFloat.opp q
  | _, [] => p
  | a :: p', b :: q' => (a - b) :: sub p' q'
  end.

Definition scale (p : Polynomial) (s : double) : Polynomial :=
  map (fun c => c * s) p.

Fixpoint mul (p q : Polynomial) : Polynomial :=
  match p with
  | [] => []
  | a :: p' => add (map (fun c => a * c) q) (0 :: mul p' q)
  end.

Fixpoint diff_from (i : Z) (p : Polynomial) : Polynomial :=
  match p with
  | [] => []
  | c :: p' => c * of_int i :: diff_from (i + 1) p'
  end.

Definition diff (p : Polynomial) (axis : Z) : Polynomial :=
  match p with
  | [] => []
  | [_] => [0]
  | _ :: p' => diff_from 1 p'
  end.

Definition tabulate (p : Polynomial) (x : double) : double :=
  fold_right (fun c acc => c + x * acc) 0 p.

Definition polynomial_ops : PolynomialOps Polynomial := {|
  poly_default := [];
  poly_one _ := [1.0];
  poly_x _ := [0.0; 1.0];
  poly_add := add;
  poly_sub := sub;
  poly_mul := mul;
  poly_scale := scale;
  poly_diff := diff;
  poly_tabulate := tabulate
|}.

(** The entry points over the reference implementations. *)
Definition quadrature (dim : Z) (m : nat) : ArrayXX * list double :=
  @make_quadrature libm_one_point Polynomial polynomial_ops dim m.

Definition quadrature_on (simplex : ArrayXX) (m : nat)
  : IO (ArrayXX * list double) :=
  @make_quadrature_simplex libm_one_point eigen_in_order Polynomial
    polynomial_ops simplex m.

(** The triangle (0,0), (0,1), (1,0): its edge matrix has determinant -1. *)
Definition inverted_triangle : ArrayXX :=
  mkArrayXX 2 [[0.0; 0.0]; [0.0; 1.0]; [1.0; 0.0]].

(** The same triangle in the plane z = 0 of three-dimensional space. *)
Definition inverted_triangle_3d : ArrayXX :=
  mkArrayXX 3 [[0.0; 0.0; 0.0]; [0.0; 1.0; 0.0]; [1.0; 0.0; 0.0]].

(** A tetrahedron whose four vertices have four coordinates each. *)
Definition tetrahedron_4d : ArrayXX :=
  mkArrayXX 4 [[0.0; 0.0; 0.0; 0.0]; [1.0; 0.0; 0.0; 0.0];
               [0.0; 1.0; 0.0; 0.0]; [0.0; 0.0; 1.0; 0.0]].

(** The unit segment, the reference triangle and the reference
    tetrahedron. *)
Definition unit_segment : ArrayXX := mkArrayXX 1 [[0.0]; [1.0]].
Definition unit_triangle : ArrayXX :=
  mkArrayXX 2 [[0.0; 0.0]; [1.0; 0.0]; [0.0; 1.0]].
Definition unit_tetrahedron : ArrayXX :=
  mkArrayXX 3 [[0.0; 0.0; 0.0]; [1.0; 0.0; 0.0];
               [0.0; 1.0; 0.0]; [0.0; 0.0; 1.0]].
End Reference.

(** * Properties *)

(** ** Counted loops and arrays *)

Section LoopFacts.
Context {St : Type}.

Lemma for_loop_invariant (Inv : nat -> St -> Prop) n body (s : St) :
  Inv O s ->
  (forall i s, (i < n)%nat -> Inv i s -> Inv (S i) (body i s)) ->
  Inv n (for_loop n body s).
Proof.
  intros H0 Hstep.
  assert (G : forall k, (k <= n)%nat -> Inv k (for_loop k body s)).
  { induction k as [|k IH]; intros Hk; simpl; [exact H0|].
    apply Hstep; [lia|]. apply IH. lia. }
  apply G. lia.
Qed.

Lemma for_loop_ext n (body body' : nat -> St -> St) s :
  (forall i s, (i < n)%nat -> body i s = body' i s) ->
  for_loop n body s = for_loop n body' s.
Proof.
  induction n as [|n IH]; intros E; simpl; [reflexivity|].
  rewrite IH by (intros; apply E; lia). apply E. lia.
Qed.
End LoopFacts.

Section FillFacts.
Context {A : Type}.

(** A loop that assigns [f i] to entry [i] for [i = 0 .. n - 1]. *)
Lemma for_loop_fill_prefix (f : nat -> A) (l : list A) k :
  (k <= length l)%nat ->
  for_loop k (fun i l => <[i := f i]> l) l = map f (seq 0 k) ++ drop k l.
Proof.
  induction k as [|k IH]; intros Hk; simpl for_loop.
  - by rewrite drop_0.
  - rewrite IH by lia.
    rewrite seq_S, map_app. simpl.
    destruct (lookup_lt_is_Some_2 l k) as [y Hy]; [lia|].
    rewrite (drop_S l y k Hy).
    rewrite insert_app_r_alt by (rewrite length_map, length_seq; lia).
    rewrite length_map, length_seq, Nat.sub_diag. simpl.
    by rewrite <- app_assoc.
Qed.

Lemma for_loop_fill (f : nat -> A) (l : list A) n :
  length l = n ->
  for_loop n (fun i l => <[i := f i]> l) l = map f (seq 0 n).
Proof.
  intros Hn. rewrite for_loop_fill_prefix by lia.
  rewrite drop_ge by lia. apply app_nil_r.
Qed.

Lemma nth_map_seq (f : nat -> A) n i d :
  (i < n)%nat -> nth i (map f (seq 0 n)) d = f i.
Proof.
  intros Hi. apply nth_lookup_Some.
  rewrite list_lookup_fmap, lookup_seq_lt by lia. reflexivity.
Qed.

Lemma map_nth_seq (l : list A) d :
  map (fun i => nth i l d) (seq 0 (length l)) = l.
Proof.
  apply list_eq. intros i. rewrite list_lookup_fmap.
  destruct (decide (i < length l)%nat) as [Hi|Hi].
  - rewrite lookup_seq_lt by lia. simpl.
    destruct (nth_lookup_or_length l i d) as [E|E]; [by rewrite E|lia].
  - rewrite lookup_seq_ge by lia. simpl.
    symmetry. apply lookup_ge_None. lia.
Qed.
End FillFacts.

Lemma set_row_fill (f : nat -> list double) (A : ArrayXX) n :
  rows A = n ->
  for_loop n (fun i A => set_row A i (f i)) A
  = mkArrayXX (cols A) (map f (seq 0 n)).
Proof.
  intros Hn. unfold rows in Hn.
  rewrite <- (for_loop_fill f (row_list A) n Hn).
  clear Hn. induction n as [|n IH]; simpl.
  - by destruct A.
  - rewrite IH. reflexivity.
Qed.

Lemma rows_alloc r c : rows (alloc r c) = r.
Proof. unfold rows, alloc. simpl. apply length_replicate. Qed.

(** ** The Jacobi recurrence *)

Section JacobiFacts.
Context {P : Type} {poly : PolynomialOps P}.
Local Open Scope float_scope.



End JacobiFacts.

(** ** Newton iteration *)

Section NewtonFacts.
Context {libm : Libm} {P : Type} {poly : PolynomialOps P}.
Local Open Scope float_scope.

Lemma newton_S b J Jd k x :
  newton (S b) J Jd k x =
  let delta := newton_delta J Jd k x in
  let x1 := <[k := nth k x 0 - delta]> x in
  if small delta then (x1, [delta])
  else (fst (newton b J Jd k x1), delta :: snd (newton b J Jd k x1)).
Proof.
  simpl. unfold small, newton_delta.
  match goal with |- context [if ?c then _ else _] => destruct c end;
    [reflexivity|].
  match goal with |- context [newton b J Jd k ?y] =>
    destruct (newton b J Jd k y) end.
  reflexivity.
Qed.

Lemma newton_length budget J Jd k x :
  length (fst (newton budget J Jd k x)) = length x.
Proof.
  revert x. induction budget as [|b IH]; intros x; [reflexivity|].
  rewrite newton_S. cbv zeta.
  destruct (small _); simpl; [by rewrite length_insert|].
  by rewrite IH, length_insert.
Qed.

(** The updates of one Newton loop entered with [S b] iterations left. *)
Lemma newton_updates_bounded b J Jd k x :
  let deltas := snd (newton (S b) J Jd k x) in
  (1 <= length deltas <= S b)%nat
  /\ (forall i delta, deltas !! i = Some delta -> small delta = true ->
        length deltas = S i)
  /\ ((length deltas < S b)%nat ->
        exists delta, last deltas = Some delta /\ small delta = true).
Proof.
  revert x. induction b as [|b IH]; intros x; rewrite newton_S; cbv zeta.
  - destruct (small _) eqn:E; simpl;
      (split; [lia|]); (split; [|intros; lia]);
      intros [|i] delta Hl Hs; simpl in Hl;
      try reflexivity; discriminate.
  - destruct (small _) eqn:E.
    + simpl. split; [lia|]. split.
      * intros [|i] delta Hl Hs; simpl in Hl; [reflexivity|discriminate].
      * intros _. eexists. split; [reflexivity|exact E].
    + match goal with
      | |- context [newton (S b) J Jd k ?y] =>
          specialize (IH y); destruct (newton (S b) J Jd k y) as [x' ds]
      end.
      simpl in IH. destruct IH as (Hlen & Hstop & Hcut). simpl.
      split; [lia|]. split.
      * intros [|i] delta Hl Hs; simpl in Hl.
        -- injection Hl as <-. congruence.
        -- f_equal. by apply (Hstop i delta).
      * intros Hlt. destruct Hcut as (delta & Hlast & Hs); [lia|].
        exists delta. split; [|exact Hs].
        destruct ds as [|d ds]; [simpl in Hlen; lia|exact Hlast].
Qed.

Lemma newton_respects_stopping_rule J Jd k x :
  respects_stopping_rule (snd (newton max_iter J Jd k x)).
Proof. apply (newton_updates_bounded 99). Qed.

Lemma points_length (a : double) (m : nat) :
  length (compute_gauss_jacobi_points a m) = m.
Proof.
  unfold compute_gauss_jacobi_points, gauss_jacobi_points_run.
  apply (for_loop_invariant
           (fun _ (st : list double * list (list double)) => length (fst st) = m)).
  - simpl. apply length_replicate.
  - intros k [x runs] Hk Hx. simpl in Hx.
    match goal with
    | |- context [newton max_iter ?J ?Jd k ?y] =>
        pose proof (newton_length max_iter J Jd k y) as Hlen;
        assert (Hy : length y = m)
          by (destruct (0 <? k)%nat; rewrite ?length_insert; exact Hx);
        destruct (newton max_iter J Jd k y) as [x' deltas]
    end.
    simpl in *. congruence.
Qed.

(** C7: [compute_gauss_jacobi_points a m] is total and returns exactly
    [m] values; the Newton loop of each of the [m] roots makes at least
    one and at most 100 updates, an update of magnitude below 1e-8 is the
    last one of its loop, and a loop that makes fewer than 100 updates
    ended on such an update.  The result is a plain array also when 100
    updates did not bring the magnitude below 1e-8. *)
Theorem compute_gauss_jacobi_points_bounded (a : double) (m : nat) :
  length (compute_gauss_jacobi_points a m) = m
  /\ length (newton_updates a m) = m
  /\ Forall respects_stopping_rule (newton_updates a m).
Proof.
  unfold compute_gauss_jacobi_points, newton_updates, gauss_jacobi_points_run.
  apply (for_loop_invariant
           (fun k (st : list double * list (list double)) =>
              length (fst st) = m /\ length (snd st) = k
              /\ Forall respects_stopping_rule (snd st))).
  - simpl. rewrite length_replicate. by repeat split.
  - intros k [x runs] Hk (Hx & Hruns & Hall). simpl in Hx, Hruns, Hall.
    match goal with
    | |- context [newton max_iter ?J ?Jd k ?y] =>
        pose proof (newton_length max_iter J Jd k y) as Hlen;
        pose proof (newton_respects_stopping_rule J Jd k y) as Hrule;
        assert (Hy : length y = m)
          by (destruct (0 <? k)%nat; rewrite ?length_insert; exact Hx);
        destruct (newton max_iter J Jd k y) as [x' deltas]
    end.
    simpl in *. split; [congruence|]. split.
    + rewrite length_app. simpl. lia.
    + apply Forall_app. split; [exact Hall|]. by apply Forall_singleton.
Qed.
End NewtonFacts.

(** ** Weights of the Gauss-Jacobi rule *)

Section RuleFacts.
Context {libm : Libm} {P : Type} {poly : PolynomialOps P}.
Local Open Scope float_scope.

(** The loop of lines 88-90 computes the product 1 * 1 * 2 * ... * m. *)
Lemma factorial_loop (m : nat) :
  for_loop m (fun i a5 => a5 * of_int (Z.of_nat i + 1)) 1.0
  = factorial_product m.
Proof.
  unfold factorial_product.
  induction m as [|m IH]; [reflexivity|].
  simpl for_loop. rewrite IH, seq_S, fold_left_app. simpl.
  by rewrite Nat2Z.inj_succ.
Qed.

Lemma rule_points a m :
  fst (compute_gauss_jacobi_rule a m) = compute_gauss_jacobi_points a m.
Proof. reflexivity. Qed.

Lemma rule_weights a m :
  snd (compute_gauss_jacobi_rule a m)
  = map (fun i =>
           let x := nth i (compute_gauss_jacobi_points a m) 0 in
           let f := poly_tabulate (poly_diff (compute_jacobi (to_int a) m) 0) x in
           c_pow 2.0 (a + 1.0) * c_tgamma (of_int (Z.of_nat m) + 1.0)
           / factorial_product m / (1.0 - x * x) / (f * f))
        (seq 0 m).
Proof.
  unfold compute_gauss_jacobi_rule. cbn [snd].
  rewrite factorial_loop.
  apply (for_loop_fill _ (replicate m 0) m). apply length_replicate.
Qed.

Lemma rule_lengths a m :
  length (fst (compute_gauss_jacobi_rule a m)) = m
  /\ length (snd (compute_gauss_jacobi_rule a m)) = m.
Proof.
  split.
  - rewrite rule_points. apply points_length.
  - rewrite rule_weights, length_map. apply length_seq.
Qed.

(** C5, as amended: for a weight exponent [a >= 0] whose value is an
    integer in the range of [int] (as 0.0, 1.0 and 2.0, the values the
    file passes) and for i < m, weight [i] of
    [compute_gauss_jacobi_rule a m] is
    2^(a+1) * tgamma(m + 1) / (1 * 1 * 2 * ... * m) / (1 - x_i^2) / J'(x_i)^2:
    x_i is the i-th computed node, J' the derivative of the polynomial
    that [compute_jacobi] returns for the weight [a] and the degree [m],
    and the two factorials are computed independently, the first by
    [tgamma] and the second as the explicit product; both stay in the
    weight, which the source divides by [1 - x_i^2] and then by
    [J'(x_i)^2]. *)
Theorem gauss_jacobi_rule_weight (a : double) (m i : nat) :
  int_valued a ->
  (i < m)%nat ->
  let x := nth i (compute_gauss_jacobi_points a m) 0 in
  let f := poly_tabulate (poly_diff (compute_jacobi (to_int a) m) 0) x in
  fst (compute_gauss_jacobi_rule a m) = compute_gauss_jacobi_points a m
  /\ length (snd (compute_gauss_jacobi_rule a m)) = m
  /\ nth i (snd (compute_gauss_jacobi_rule a m)) 0
     = c_pow 2.0 (a + 1.0) * c_tgamma (of_int (Z.of_nat m) + 1.0)
       / factorial_product m / (1.0 - x * x) / (f * f).
Proof.
  intros _ Hi x f. split; [apply rule_points|].
  split; [apply rule_lengths|].
  rewrite rule_weights. by rewrite nth_map_seq.
Qed.
End RuleFacts.

(** ** The collapsed rule on the triangle *)

Section TensorFacts.
Local Open Scope float_scope.

Lemma tensor_filled_step f g m c i j idx pts wts :
  (i < m)%nat -> (j < m)%nat ->
  tensor_filled f g m c (i * m + j) (idx, pts, wts) ->
  tensor_filled f g m c (i * m + S j)
    (S idx, set_row pts idx (f i j), <[idx := g i j]> wts).
Proof.
  intros Hi Hj (-> & Hrows & Hcols & Hlen & Hent).
  assert (Hin : (i * m + j < m * m)%nat) by nia.
  assert (Hdiv : ((i * m + j) / m = i)%nat)
    by (symmetry; apply (Nat.div_unique _ _ _ j); lia).
  assert (Hmod : ((i * m + j) mod m = j)%nat)
    by (symmetry; apply (Nat.mod_unique _ _ i); lia).
  unfold tensor_filled, rows, row, set_row in *. simpl.
  split; [lia|]. split; [by rewrite length_insert|].
  split; [exact Hcols|]. split; [by rewrite length_insert|].
  intros p Hp. destruct (decide (p = i * m + j)%nat) as [->|Hne].
  - rewrite Hdiv, Hmod. split; apply nth_lookup_Some;
      apply list_lookup_insert_eq; lia.
  - destruct (Hent p) as [Hr Hw]; [lia|]. rewrite <- Hr, <- Hw.
    split; rewrite !nth_lookup; by rewrite list_lookup_insert_ne.
Qed.

Lemma tensor_loop f g m pts0 wts0 :
  rows pts0 = (m * m)%nat -> length wts0 = (m * m)%nat ->
  tensor_filled f g m (cols pts0) (m * m)
    (for_loop m (fun i st =>
       for_loop m (fun j '(idx, pts, wts) =>
         (S idx, set_row pts idx (f i j), <[idx := g i j]> wts)) st)
       (O, pts0, wts0)).
Proof.
  intros Hrows Hlen.
  apply (for_loop_invariant (fun i st => tensor_filled f g m (cols pts0) (i * m) st)).
  - repeat split; try assumption; lia.
  - intros i st Hi Hst.
    replace (S i * m)%nat with (i * m + m)%nat by lia.
    apply (for_loop_invariant
             (fun j st => tensor_filled f g m (cols pts0) (i * m + j) st)).
    + by rewrite Nat.add_0_r.
    + intros j [[idx pts] wts] Hj Hin. by apply tensor_filled_step.
Qed.

Context {libm : Libm} {P : Type} {poly : PolynomialOps P}.

Lemma triangle_collapsed_filled m :
  let rx := compute_gauss_jacobi_rule 0.0 m in
  let ry := compute_gauss_jacobi_rule 1.0 m in
  tensor_filled
    (fun i j => [0.25 * (1.0 + nth i (fst rx) 0) * (1.0 - nth j (fst ry) 0);
                 0.5 * (1.0 + nth j (fst ry) 0)])
    (fun i j => nth i (snd rx) 0 * nth j (snd ry) 0 * 0.125)
    m 2 (m * m)
    (m * m, fst (make_quadrature_triangle_collapsed m),
     snd (make_quadrature_triangle_collapsed m))%nat.
Proof.
  intros rx ry. unfold make_quadrature_triangle_collapsed.
  subst rx ry.
  destruct (compute_gauss_jacobi_rule 0.0 m) as [ptx wx].
  destruct (compute_gauss_jacobi_rule 1.0 m) as [pty wy].
  cbn [fst snd].
  pose proof (tensor_loop
    (fun i j => [0.25 * (1.0 + nth i ptx 0) * (1.0 - nth j pty 0);
                 0.5 * (1.0 + nth j pty 0)])
    (fun i j => nth i wx 0 * nth j wy 0 * 0.125)
    m (alloc (m * m) 2) (replicate (m * m) 0)
    (rows_alloc _ _) (length_replicate _ _)) as H.
  cbv beta in H.
  match type of H with
  | tensor_filled _ _ _ _ _ ?l =>
      match goal with
      | |- context [let '(_, _) := ?l' in _] => change l' with l
      end;
      destruct l as [[idx pts] wts]
  end.
  cbn [fst snd]. destruct H as (-> & H). by split.
Qed.

End TensorFacts.

(** ** The simplex entry point *)

Section SimplexFacts.
Context {libm : Libm} {eigen : Eigen} {P : Type} {poly : PolynomialOps P}.
Local Open Scope float_scope.

Lemma edge_vectors_matrix simplex d :
  edge_vectors simplex d = edge_matrix simplex d.
Proof. apply (set_row_fill (edge simplex)). apply rows_alloc. Qed.

Lemma rescale_mapped simplex Qpts Qwts scale :
  rescale simplex (edge_matrix simplex (rows simplex - 1)) Qpts Qwts scale
  = (mapped_points simplex Qpts, map (fun w => w * scale) Qwts).
Proof.
  unfold rescale, mapped_points. f_equal.
  rewrite (set_row_fill
             (fun i => zip_with PrimFloat.add (row simplex 0)
                         (eigen_rowmul (row Qpts i)
                            (edge_matrix simplex (rows simplex - 1)))))
    by apply rows_alloc.
  simpl. f_equal. unfold rows, row.
  transitivity
    (map (fun p => zip_with PrimFloat.add (row simplex 0)
                     (eigen_rowmul p (edge_matrix simplex (rows simplex - 1))))
         (map (fun i => nth i (row_list Qpts) [])
              (seq 0 (length (row_list Qpts))))).
  - by rewrite map_map.
  - by rewrite map_nth_seq.
Qed.

(** Validation (lines 182-186). *)
Lemma simplex_run_invalid simplex m out :
  invalid_simplex simplex ->
  make_quadrature_simplex simplex m out
  = (Thrown (if decide (2 <= rows simplex <= 4)%nat
             then "Invalid simplex" else "Unsupported dim"), out).
Proof.
  unfold invalid_simplex, make_quadrature_simplex. cbv zeta. intros H.
  destruct (Z.ltb_spec (Z.of_nat (rows simplex) - 1) 1);
    destruct (Z.gtb_spec (Z.of_nat (rows simplex) - 1) 3); simpl;
    try (destruct (decide _); [lia|reflexivity]).
  destruct (Z.ltb_spec (Z.of_nat (cols simplex)) (Z.of_nat (rows simplex) - 1));
    [|lia].
  destruct (decide _); [reflexivity|lia].
Qed.

Lemma simplex_run_valid simplex m out :
  ~ invalid_simplex simplex ->
  make_quadrature_simplex simplex m out
  = (cout (PrintBvec (edge_matrix simplex (rows simplex - 1))) ;;
     rule <- rule_and_scale (Z.of_nat (rows simplex) - 1)
               (edge_matrix simplex (rows simplex - 1)) m ;;
     let '(Qpts, Qwts, scale) := rule in
     cout (PrintScale scale) ;;
     ret (rescale simplex (edge_matrix simplex (rows simplex - 1))
            Qpts Qwts scale)) out.
Proof.
  unfold invalid_simplex, make_quadrature_simplex. cbv zeta. intros H.
  destruct (Z.ltb_spec (Z.of_nat (rows simplex) - 1) 1); [lia|].
  destruct (Z.gtb_spec (Z.of_nat (rows simplex) - 1) 3); [lia|]. simpl orb.
  destruct (Z.ltb_spec (Z.of_nat (cols simplex)) (Z.of_nat (rows simplex) - 1));
    [lia|].
  rewrite edge_vectors_matrix.
  replace (Z.to_nat (Z.of_nat (rows simplex) - 1)) with (rows simplex - 1)%nat by lia.
  reflexivity.
Qed.

Lemma well_formed_row simplex i :
  well_formed simplex -> (i < rows simplex)%nat ->
  length (row simplex i) = cols simplex.
Proof.
  unfold well_formed, rows, row. intros Hwf Hi.
  destruct (lookup_lt_is_Some_2 (row_list simplex) i Hi) as [r Hr].
  rewrite (nth_lookup_Some _ _ _ _ Hr).
  by apply (Forall_lookup_1 _ _ _ _ Hwf Hr).
Qed.

Lemma edge_length simplex i :
  well_formed simplex -> (i + 1 < rows simplex)%nat ->
  length (edge simplex i) = cols simplex.
Proof.
  intros Hwf Hi. unfold edge. rewrite length_zip_with.
  rewrite !well_formed_row by (assumption || lia). lia.
Qed.

Lemma edge_matrix_row simplex d i :
  (i < d)%nat -> row (edge_matrix simplex d) i = edge simplex i.
Proof. intros Hi. unfold row, edge_matrix. simpl. by apply nth_map_seq. Qed.

Lemma simplex_run_returned simplex m out Qpts Qwts scale :
  ~ invalid_simplex simplex ->
  rule_and_scale (Z.of_nat (rows simplex) - 1)
    (edge_matrix simplex (rows simplex - 1)) m
    (out ++ [PrintBvec (edge_matrix simplex (rows simplex - 1))])
  = (Returned (Qpts, Qwts, scale),
     out ++ [PrintBvec (edge_matrix simplex (rows simplex - 1))]) ->
  make_quadrature_simplex simplex m out
  = (Returned (mapped_points simplex Qpts, map (fun w => w * scale) Qwts),
     out ++ [PrintBvec (edge_matrix simplex (rows simplex - 1));
             PrintScale scale]).
Proof.
  intros Hvalid Hrule. rewrite simplex_run_valid by exact Hvalid.
  unfold bind at 1. unfold cout at 1. unfold bind at 1. rewrite Hrule.
  unfold bind, cout, ret. rewrite rescale_mapped, <- app_assoc. reflexivity.
Qed.

Lemma simplex_run_aborted simplex m out :
  ~ invalid_simplex simplex ->
  rule_and_scale (Z.of_nat (rows simplex) - 1)
    (edge_matrix simplex (rows simplex - 1)) m
    (out ++ [PrintBvec (edge_matrix simplex (rows simplex - 1))])
  = (Aborted, out ++ [PrintBvec (edge_matrix simplex (rows simplex - 1))]) ->
  make_quadrature_simplex simplex m out
  = (Aborted, out ++ [PrintBvec (edge_matrix simplex (rows simplex - 1))]).
Proof.
  intros Hvalid Hrule. rewrite simplex_run_valid by exact Hvalid.
  unfold bind at 1. unfold cout at 1. unfold bind at 1. by rewrite Hrule.
Qed.

(** The four shapes for which the scale factor is defined. *)
Lemma rule_and_scale_line bvec m out :
  rule_and_scale 1 bvec m out
  = (Returned (make_quadrature 1 m, eigen_norm (concat (row_list bvec))), out).
Proof.
  unfold rule_and_scale, make_quadrature. simpl Z.eqb. cbv iota.
  by destruct (make_quadrature_line m).
Qed.

Lemma rule_and_scale_triangle_2d bvec m out :
  cols bvec = 2%nat ->
  rule_and_scale 2 bvec m out
  = (Returned (make_quadrature 2 m, eigen_determinant bvec), out).
Proof.
  intros Hc. unfold rule_and_scale, make_quadrature. simpl Z.eqb. cbv iota.
  rewrite Hc. by destruct (make_quadrature_triangle_collapsed m).
Qed.

Lemma rule_and_scale_triangle_other bvec m out :
  cols bvec <> 2%nat ->
  rule_and_scale 2 bvec m out
  = if ((length (row bvec 0) =? 3) && (length (row bvec 1) =? 3))%nat
    then (Returned (make_quadrature 2 m,
                    eigen_norm (eigen_cross (row bvec 0) (row bvec 1))), out)
    else (Aborted, out).
Proof.
  intros Hc. unfold rule_and_scale, make_quadrature. simpl Z.eqb. cbv iota.
  destruct (Nat.eqb_spec (cols bvec) 2) as [?|_]; [done|].
  destruct (make_quadrature_triangle_collapsed m) as [Qpts Qwts].
  unfold vector3d, bind, cassert, ret.
  destruct (length (row bvec 0) =? 3)%nat; [|reflexivity].
  by destruct (length (row bvec 1) =? 3)%nat.
Qed.

Lemma rule_and_scale_tetrahedron bvec m out dim :
  dim <> 1%Z -> dim <> 2%Z ->
  rule_and_scale dim bvec m out
  = if (cols bvec =? 3)%nat
    then (Returned (make_quadrature dim m, eigen_determinant bvec), out)
    else (Aborted, out).
Proof.
  intros H1 H2. unfold rule_and_scale, make_quadrature.
  destruct (Z.eqb_spec dim 1) as [?|_]; [done|].
  destruct (Z.eqb_spec dim 2) as [?|_]; [done|].
  destruct (make_quadrature_tetrahedron_collapsed m) as [Qpts Qwts].
  unfold bind, cassert, ret. by destruct (cols bvec =? 3)%nat.
Qed.

(** A supported shape: the call returns the rescaled reference rule and
    prints the edge matrix and the scale factor. *)
Lemma simplex_run_supported simplex m out scale :
  well_formed simplex ->
  simplex_scale simplex = Some scale ->
  make_quadrature_simplex simplex m out
  = (Returned (mapped_points simplex (fst (reference_rule simplex m)),
               map (fun w => w * scale) (snd (reference_rule simplex m))),
     out ++ [PrintBvec (edge_matrix simplex (rows simplex - 1));
             PrintScale scale]).
Proof.
  intros Hwf Hs.
  assert (Hvalid : ~ invalid_simplex simplex).
  { unfold invalid_simplex, simplex_scale in *.
    destruct (rows simplex) as [|[|[|[|[|[|r]]]]]]; try discriminate;
      destruct (cols simplex) as [|[|[|[|c]]]]; try discriminate; lia. }
  apply simplex_run_returned; [exact Hvalid|].
  unfold reference_rule, simplex_scale in *.
  pose proof (edge_length simplex 0 Hwf) as He0.
  pose proof (edge_length simplex 1 Hwf) as He1.
  destruct (rows simplex) as [|[|[|[|[|[|r]]]]]] eqn:Hr; try discriminate.
  - (* a segment *)
    change (Z.of_nat 2 - 1)%Z with 1%Z. rewrite rule_and_scale_line.
    destruct (cols simplex) as [|c]; [discriminate|]. injection Hs as <-.
    change (concat (row_list (edge_matrix simplex (2 - 1))))
      with (edge simplex 0 ++ []).
    rewrite app_nil_r. by destruct (make_quadrature 1 m).
  - (* a triangle *)
    change (Z.of_nat 3 - 1)%Z with 2%Z.
    destruct (cols simplex) as [|[|[|[|c]]]] eqn:Hc; try discriminate;
      injection Hs as <-.
    + rewrite rule_and_scale_triangle_2d by exact Hc.
      by destruct (make_quadrature 2 m).
    + rewrite rule_and_scale_triangle_other
        by (change (cols (edge_matrix simplex (3 - 1))) with (cols simplex); lia).
      rewrite !edge_matrix_row by lia.
      rewrite He0, He1 by lia.
      change ((3 =? 3)%nat && (3 =? 3)%nat) with true. cbv iota.
      by destruct (make_quadrature 2 m).
  - (* a tetrahedron *)
    change (Z.of_nat 4 - 1)%Z with 3%Z.
    destruct (cols simplex) as [|[|[|[|c]]]] eqn:Hc; try discriminate;
      injection Hs as <-.
    rewrite rule_and_scale_tetrahedron by lia.
    change (cols (edge_matrix simplex (4 - 1))) with (cols simplex).
    rewrite Hc. change (3 =? 3)%nat with true. cbv iota.
    by destruct (make_quadrature 3 m).
Qed.

(** A valid simplex of another shape stops on an assertion after the
    edge matrix has been printed. *)
Lemma simplex_run_unsupported simplex m out :
  well_formed simplex ->
  ~ invalid_simplex simplex ->
  simplex_scale simplex = None ->
  make_quadrature_simplex simplex m out
  = (Aborted, out ++ [PrintBvec (edge_matrix simplex (rows simplex - 1))]).
Proof.
  intros Hwf Hvalid Hs. apply simplex_run_aborted; [exact Hvalid|].
  unfold invalid_simplex, simplex_scale in *.
  pose proof (edge_length simplex 0 Hwf) as He0.
  destruct (rows simplex) as [|[|[|[|[|[|r]]]]]] eqn:Hr; try lia.
  - destruct (cols simplex); [lia|discriminate].
  - change (Z.of_nat 3 - 1)%Z with 2%Z.
    rewrite rule_and_scale_triangle_other
      by (change (cols (edge_matrix simplex (3 - 1))) with (cols simplex);
          destruct (cols simplex) as [|[|[|[|c]]]]; try discriminate; lia).
    rewrite edge_matrix_row, He0 by lia.
    destruct (cols simplex) as [|[|[|[|c]]]]; try discriminate; try lia.
    reflexivity.
  - change (Z.of_nat 4 - 1)%Z with 3%Z.
    rewrite rule_and_scale_tetrahedron by lia.
    change (cols (edge_matrix simplex (4 - 1))) with (cols simplex).
    destruct (cols simplex) as [|[|[|[|c]]]]; try discriminate; try lia.
    reflexivity.
Qed.

Lemma supported_shape_scale simplex :
  ~ invalid_simplex simplex ->
  (supported_shape simplex <-> is_Some (simplex_scale simplex)).
Proof.
  unfold invalid_simplex, supported_shape, simplex_scale. intros Hvalid.
  destruct (rows simplex) as [|[|[|[|[|[|r]]]]]];
    destruct (cols simplex) as [|[|[|[|c]]]];
    (split; [intros H; try lia; eexists; reflexivity
            |intros [s Hs]; try discriminate; lia]).
Qed.

(** What a call prints and returns does not depend on the text already
    on the stream. *)
Lemma output_only_ret {A} (a : A) : output_only (ret a).
Proof. exists (Returned a), []. intros out. unfold ret. by rewrite app_nil_r. Qed.

Lemma output_only_throw {A} what : output_only (@throw A what).
Proof. exists (Thrown what), []. intros out. unfold throw. by rewrite app_nil_r. Qed.

Lemma output_only_cout e : output_only (cout e).
Proof. by exists (Returned tt), [e]. Qed.

Lemma output_only_cassert b : output_only (cassert b).
Proof.
  destruct b; [exists (Returned tt), []|exists Aborted, []];
    intros out; unfold cassert; by rewrite app_nil_r.
Qed.

Lemma output_only_bind {A B} (c : IO A) (k : A -> IO B) :
  output_only c -> (forall a, output_only (k a)) -> output_only (bind c k).
Proof.
  intros (o & ev & Hc) Hk. destruct o as [a|what|].
  - destruct (Hk a) as (o' & ev' & Hka). exists o', (ev ++ ev').
    intros out. unfold bind. by rewrite Hc, Hka, app_assoc.
  - exists (Thrown what), ev. intros out. unfold bind. by rewrite Hc.
  - exists Aborted, ev. intros out. unfold bind. by rewrite Hc.
Qed.

Lemma output_only_rule_and_scale dim bvec m :
  output_only (rule_and_scale dim bvec m).
Proof.
  unfold rule_and_scale, vector3d.
  destruct (dim =? 1)%Z;
    [destruct (make_quadrature_line m); apply output_only_ret|].
  destruct (dim =? 2)%Z.
  - destruct (make_quadrature_triangle_collapsed m).
    destruct (cols bvec =? 2)%nat; [apply output_only_ret|].
    repeat (apply output_only_bind; [|intros ?]);
      auto using output_only_ret, output_only_cassert.
  - destruct (make_quadrature_tetrahedron_collapsed m).
    apply output_only_bind; [apply output_only_cassert|intros _].
    apply output_only_ret.
Qed.

Lemma output_only_simplex simplex m :
  output_only (make_quadrature_simplex simplex m).
Proof.
  unfold make_quadrature_simplex. cbv zeta.
  destruct (_ || _); [apply output_only_throw|].
  destruct (_ <? _)%Z; [apply output_only_throw|].
  apply output_only_bind; [apply output_only_cout|intros _].
  apply output_only_bind; [apply output_only_rule_and_scale|].
  intros [[Qpts Qwts] scale].
  apply output_only_bind; [apply output_only_cout|intros _].
  apply output_only_ret.
Qed.
End SimplexFacts.

(** ** The two entry points *)

Section EntryPoints.
Context {libm : Libm} {eigen : Eigen} {P : Type} {poly : PolynomialOps P}.
Local Open Scope float_scope.

Lemma invalid_simplex_dec simplex :
  invalid_simplex simplex \/ ~ invalid_simplex simplex.
Proof. unfold invalid_simplex. lia. Qed.

Lemma supported_shape_dec simplex :
  supported_shape simplex \/ ~ supported_shape simplex.
Proof. unfold supported_shape. lia. Qed.

Lemma printed_scale_supported simplex m scale :
  well_formed simplex ->
  simplex_scale simplex = Some scale ->
  printed_scale simplex m = Some scale.
Proof.
  intros Hwf Hs. unfold printed_scale.
  by rewrite (simplex_run_supported simplex m [] scale Hwf Hs).
Qed.

(** C2, as amended: the simplex entry point throws exactly when
    dim = rows - 1 is outside {1, 2, 3} or there are fewer coordinate
    columns than dim, and then nothing has been printed and the result
    depends on no rule; every other well-formed simplex of a supported
    shape (dim = 1, dim = 2 with two or three columns, dim = 3 with
    three columns) makes the call return a rule, and every other
    well-formed simplex of another shape stops it on an assertion. *)
Theorem simplex_validation (simplex : ArrayXX) (m : nat) (out : list Event) :
  well_formed simplex ->
  ((exists what, fst (make_quadrature_simplex simplex m out) = Thrown what)
   <-> invalid_simplex simplex)
  /\ (invalid_simplex simplex ->
      make_quadrature_simplex simplex m out
      = (Thrown (if decide (2 <= rows simplex <= 4)%nat
                 then "Invalid simplex" else "Unsupported dim"), out))
  /\ (~ invalid_simplex simplex -> supported_shape simplex ->
      exists rule, fst (make_quadrature_simplex simplex m out) = Returned rule)
  /\ (~ invalid_simplex simplex -> ~ supported_shape simplex ->
      fst (make_quadrature_simplex simplex m out) = Aborted).
Proof.
  intros Hwf.
  assert (Hret : ~ invalid_simplex simplex -> supported_shape simplex ->
            exists rule, fst (make_quadrature_simplex simplex m out) = Returned rule).
  { intros Hvalid Hshape.
    destruct (proj1 (supported_shape_scale simplex Hvalid) Hshape) as [s Hs].
    rewrite (simplex_run_supported simplex m out s Hwf Hs). by eexists. }
  assert (Habort : ~ invalid_simplex simplex -> ~ supported_shape simplex ->
            fst (make_quadrature_simplex simplex m out) = Aborted).
  { intros Hvalid Hshape.
    rewrite simplex_run_unsupported; [reflexivity|assumption..|].
    destruct (simplex_scale simplex) eqn:Hs; [|reflexivity].
    exfalso. apply Hshape. apply supported_shape_scale; [assumption|].
    by eexists. }
  repeat split; try assumption.
  - intros [what Hthrown].
    destruct (invalid_simplex_dec simplex) as [Hinv|Hvalid]; [exact Hinv|].
    exfalso. destruct (supported_shape_dec simplex) as [Hshape|Hshape].
    + destruct (Hret Hvalid Hshape) as [rule Hr]. congruence.
    + specialize (Habort Hvalid Hshape). congruence.
  - intros Hinv. rewrite simplex_run_invalid by exact Hinv. by eexists.
  - intros Hinv. by apply simplex_run_invalid.
Qed.

(** C3: for a well-formed simplex the scale factor that
    [make_quadrature(simplex, m)] computes (and prints) is the norm of the
    single edge vector when dim = 1; when dim = 2, the determinant of
    the 2 x 2 edge matrix if the vertices have two columns and the norm
    of the cross product of the two edge vectors if they have three;
    and the determinant of the 3 x 3 edge matrix when dim = 3.  Edge
    vector i is vertex (i + 1) minus vertex 0. *)
Theorem simplex_scale_factor (simplex : ArrayXX) (m : nat) :
  well_formed simplex ->
  (rows simplex = 2%nat -> (1 <= cols simplex)%nat ->
     printed_scale simplex m = Some (eigen_norm (edge simplex 0)))
  /\ (rows simplex = 3%nat -> cols simplex = 2%nat ->
       printed_scale simplex m
       = Some (eigen_determinant (edge_matrix simplex 2)))
  /\ (rows simplex = 3%nat -> cols simplex = 3%nat ->
       printed_scale simplex m
       = Some (eigen_norm (eigen_cross (edge simplex 0) (edge simplex 1))))
  /\ (rows simplex = 4%nat -> cols simplex = 3%nat ->
       printed_scale simplex m
       = Some (eigen_determinant (edge_matrix simplex 3)))
  /\ (forall i, edge simplex i
                = zip_with PrimFloat.sub (row simplex (i + 1)) (row simplex 0)).
Proof.
  intros Hwf.
  repeat split; try (intros Hr Hc; apply printed_scale_supported; [exact Hwf|];
    unfold simplex_scale; rewrite Hr).
  - destruct (cols simplex); [lia|reflexivity].
  - by rewrite Hc.
  - by rewrite Hc.
  - by rewrite Hc.
Qed.

(** C9: both entry points are deterministic.  Calls with identical
    (dim, m) return identical points and weights; calls with identical
    (simplex, m) have identical outcomes and print identical text,
    whatever was on the output stream before each call. *)
Theorem make_quadrature_deterministic
    (dim dim' : Z) (simplex simplex' : ArrayXX) (m m' : nat)
    (out out' : list Event) :
  dim = dim' -> simplex = simplex' -> m = m' ->
  make_quadrature dim m = make_quadrature dim' m'
  /\ fst (make_quadrature_simplex simplex m out)
     = fst (make_quadrature_simplex simplex' m' out')
  /\ exists printed,
       snd (make_quadrature_simplex simplex m out) = out ++ printed
       /\ snd (make_quadrature_simplex simplex' m' out') = out' ++ printed.
Proof.
  intros <- <- <-. split; [reflexivity|].
  destruct (output_only_simplex simplex m) as (o & printed & H).
  rewrite (H out), (H out'). split; [reflexivity|]. by exists printed.
Qed.

(** C10: the reference-cell entry point validates nothing and always
    returns a rule: the line rule for dim = 1, the collapsed triangle
    rule for dim = 2, and the collapsed tetrahedron rule for every other
    value of dim, 0, 4 and the negative ones included. *)
Theorem make_quadrature_dispatch (dim : Z) (m : nat) :
  dim <> 1%Z -> dim <> 2%Z ->
  make_quadrature 1 m
    = (as_column (fst (make_quadrature_line m)), snd (make_quadrature_line m))
  /\ make_quadrature 2 m = make_quadrature_triangle_collapsed m
  /\ make_quadrature dim m = make_quadrature_tetrahedron_collapsed m
  /\ make_quadrature 0 m = make_quadrature_tetrahedron_collapsed m
  /\ make_quadrature 4 m = make_quadrature_tetrahedron_collapsed m
  /\ make_quadrature (-1) m = make_quadrature_tetrahedron_collapsed m.
Proof.
  intros H1 H2. unfold make_quadrature.
  destruct (Z.eqb_spec dim 1) as [?|_]; [done|].
  destruct (Z.eqb_spec dim 2) as [?|_]; [done|].
  simpl Z.eqb. cbv iota.
  by destruct (make_quadrature_line m).
Qed.
End EntryPoints.

(** ** The rules on concrete inputs *)

Section Evaluation.
Import Reference.
#[local] Existing Instance libm_one_point.
#[local] Existing Instance eigen_in_order.
#[local] Existing Instance polynomial_ops.
Local Open Scope float_scope.

Lemma well_formed_unit_segment : well_formed unit_segment.
Proof. repeat constructor. Qed.

Lemma well_formed_unit_triangle : well_formed unit_triangle.
Proof. repeat constructor. Qed.

Lemma well_formed_tetrahedron_4d : well_formed tetrahedron_4d.
Proof. repeat constructor. Qed.

(** C1: on the triangle (0,0), (0,1), (1,0), whose edge matrix has
    determinant -1, the one-point rule has the reference weight 0.5 and
    the scale factor -1; the returned weight is their product -0.5, not
    the reference weight times the absolute value of the scale factor,
    0.5. *)
Theorem inverted_triangle_weight :
  snd (quadrature 2 1) = [0.5]
  /\ simplex_scale inverted_triangle = Some (-1)
  /\ (exists pts, fst (quadrature_on inverted_triangle 1 [])
                  = Returned (pts, [-0.5]))
  /\ map (fun w => w * abs (-1)) (snd (quadrature 2 1)) = [0.5].
Proof.
  split; [by vm_compute|]. split; [by vm_compute|].
  split; [|by vm_compute].
  eexists. vm_compute. reflexivity.
Qed.

(** C8: the weights of the one-point rule on the triangle (0,0), (0,1),
    (1,0), of area 1/2, sum to -0.5; on the same triangle given with
    three coordinates they sum to 0.5, as do the weights of the
    reference triangle rule. *)
Theorem inverted_triangle_total :
  (exists pts wts, fst (quadrature_on inverted_triangle 1 []) = Returned (pts, wts)
                   /\ total wts = -0.5)
  /\ (exists pts wts, fst (quadrature_on inverted_triangle_3d 1 [])
                        = Returned (pts, wts)
                      /\ total wts = 0.5)
  /\ total (snd (quadrature 2 1)) = 0.5.
Proof.
  split; [|split; [|by vm_compute]];
    eexists; eexists; vm_compute; split; reflexivity.
Qed.

(** C2, counterexample: a tetrahedron whose vertices have four
    coordinates is well formed and passes both checks (dim = 3 and
    4 >= 3), yet the call fails: it stops on the assertion of line
    220. *)
Lemma tetrahedron_4d_aborts :
  well_formed tetrahedron_4d
  /\ ~ invalid_simplex tetrahedron_4d
  /\ fst (quadrature_on tetrahedron_4d 1 []) = Aborted.
Proof.
  split; [exact well_formed_tetrahedron_4d|]. split; [|by vm_compute].
  unfold invalid_simplex. vm_compute. intros [H|[H|H]]; discriminate.
Qed.

(** The theorems above at concrete inputs. *)

Lemma simplex_validation_witness :
  exists rule, fst (quadrature_on unit_triangle 1 []) = Returned rule.
Proof.
  destruct (simplex_validation unit_triangle 1 [] well_formed_unit_triangle)
    as (_ & _ & Hret & _).
  apply Hret.
  - unfold invalid_simplex. vm_compute. intros [H|[H|H]]; discriminate.
  - right. left. split; [reflexivity|]. left. reflexivity.
Defined.

Lemma simplex_scale_factor_witness :
  printed_scale unit_segment 1 = Some (eigen_norm (edge unit_segment 0))
  /\ printed_scale unit_triangle 1
     = Some (eigen_determinant (edge_matrix unit_triangle 2)).
Proof.
  split.
  - apply (simplex_scale_factor unit_segment 1 well_formed_unit_segment);
      [reflexivity|vm_compute; lia].
  - apply (simplex_scale_factor unit_triangle 1 well_formed_unit_triangle);
      reflexivity.
Defined.


Lemma gauss_jacobi_rule_weight_witness :
  nth 0 (snd (compute_gauss_jacobi_rule 1.0 1)) 0
  = c_pow 2.0 (1.0 + 1.0) * c_tgamma (of_int 1 + 1.0) / factorial_product 1
    / (1.0 - nth 0 (compute_gauss_jacobi_points 1.0 1) 0
             * nth 0 (compute_gauss_jacobi_points 1.0 1) 0)
    / (poly_tabulate (poly_diff (compute_jacobi (to_int 1.0) 1) 0)
         (nth 0 (compute_gauss_jacobi_points 1.0 1) 0)
       * poly_tabulate (poly_diff (compute_jacobi (to_int 1.0) 1) 0)
           (nth 0 (compute_gauss_jacobi_points 1.0 1) 0)).
Proof.
  apply (gauss_jacobi_rule_weight 1.0 1 0); [|lia].
  split; [vm_compute; reflexivity|]. vm_compute. split; discriminate.
Defined.

Lemma make_quadrature_deterministic_witness :
  make_quadrature 2 1 = make_quadrature 2 1
  /\ fst (quadrature_on unit_triangle 1 [])
     = fst (quadrature_on unit_triangle 1 [PrintScale 1.0])
  /\ exists printed,
       snd (quadrature_on unit_triangle 1 []) = [] ++ printed
       /\ snd (quadrature_on unit_triangle 1 [PrintScale 1.0])
          = [PrintScale 1.0] ++ printed.
Proof.
  apply (make_quadrature_deterministic 2 2 unit_triangle unit_triangle 1 1
           [] [PrintScale 1.0]); reflexivity.
Defined.

Lemma make_quadrature_dispatch_witness :
  make_quadrature 7 1 = make_quadrature_tetrahedron_collapsed 1.
Proof. apply (make_quadrature_dispatch 7 1); lia. Defined.
End Evaluation.

(** * Further properties *)

(** ** The nodes as initial guesses minus Newton updates *)

Section PointsFacts.
Context {libm : Libm} {P : Type} {poly : PolynomialOps P}.
Local Open Scope float_scope.

Lemma newton_frame b J Jd k x i :
  i <> k -> nth i (fst (newton b J Jd k x)) 0 = nth i x 0.
Proof.
  intros Hik. revert x. induction b as [|b IH]; intros x; [reflexivity|].
  rewrite newton_S. cbv zeta. destruct (small _); cbn [fst].
  - rewrite !nth_lookup. by rewrite list_lookup_insert_ne.
  - rewrite IH, !nth_lookup. by rewrite list_lookup_insert_ne.
Qed.

Lemma newton_result b J Jd k x :
  (k < length x)%nat ->
  nth k (fst (newton b J Jd k x)) 0
  = fold_left PrimFloat.sub (snd (newton b J Jd k x)) (nth k x 0).
Proof.
  revert x. induction b as [|b IH]; intros x Hk; [reflexivity|].
  rewrite newton_S. cbv zeta. destruct (small _); cbn [fst snd].
  - simpl. apply nth_lookup_Some. by apply list_lookup_insert_eq.
  - rewrite IH by (by rewrite length_insert). simpl. f_equal.
    apply nth_lookup_Some. by apply list_lookup_insert_eq.
Qed.

(** X4: node [k] of [compute_gauss_jacobi_points a m] is its initial guess
    minus the successive Newton updates of root [k], subtracted in order;
    the initial guess is the Chebyshev point -cos((2k+1) pi / (2m)) for
    k = 0 and its mean with the final node k - 1 for k > 0. *)
Theorem gauss_jacobi_point_from_guess (a : double) (m k : nat) :
  (k < m)%nat ->
  nth k (compute_gauss_jacobi_points a m) 0
  = fold_left PrimFloat.sub (nth k (newton_updates a m) [])
      (initial_guess (compute_gauss_jacobi_points a m) k m).
Proof.
  intros Hk. unfold compute_gauss_jacobi_points, newton_updates,
    gauss_jacobi_points_run.
  match goal with
  | |- context [for_loop m ?body ?init] =>
      assert (Hinv : length (fst (for_loop m body init)) = m
                /\ length (snd (for_loop m body init)) = m
                /\ forall i, (i < m)%nat ->
                     nth i (fst (for_loop m body init)) 0
                     = fold_left PrimFloat.sub (nth i (snd (for_loop m body init)) [])
                         (initial_guess (fst (for_loop m body init)) i m));
      [|by apply Hinv]
  end.
  apply (for_loop_invariant
           (fun j (st : list double * list (list double)) =>
              length (fst st) = m /\ length (snd st) = j
              /\ forall i, (i < j)%nat ->
                   nth i (fst st) 0
                   = fold_left PrimFloat.sub (nth i (snd st) [])
                       (initial_guess (fst st) i m))).
  - simpl. rewrite length_replicate. repeat split. intros i Hi. lia.
  - intros j [x runs] Hj (Hx & Hruns & Hent). cbn [fst snd] in Hx, Hruns, Hent.
    set (x1 := <[j := - c_cos ((2.0 * of_int (Z.of_nat j) + 1.0) * M_PI
                               / (2.0 * of_int (Z.of_nat m)))]> x).
    set (x2 := if (0 <? j)%nat
               then <[j := 0.5 * (nth j x1 0 + nth (j - 1) x1 0)]> x1 else x1).
    assert (Hx1 : length x1 = m) by (subst x1; by rewrite length_insert).
    assert (Hx2 : length x2 = m)
      by (subst x2; destruct (0 <? j)%nat; by rewrite ?length_insert).
    assert (Hold : forall i, i <> j -> nth i x2 0 = nth i x 0).
    { intros i Hi. subst x2 x1. rewrite !nth_lookup.
      destruct (0 <? j)%nat; by rewrite ?list_lookup_insert_ne. }
    assert (Hguess : nth j x2 0 = initial_guess x j m).
    { subst x2. unfold initial_guess, chebyshev.
      destruct (Nat.ltb_spec 0 j) as [Hpos|Hzero].
      - match goal with
        | |- nth j (<[j := ?v]> x1) 0 = _ =>
            assert (E : nth j (<[j := v]> x1) 0 = v)
              by (apply nth_lookup_Some, list_lookup_insert_eq; lia);
            rewrite E; clear E
        end.
        f_equal. f_equal.
        + subst x1. apply nth_lookup_Some. apply list_lookup_insert_eq. lia.
        + subst x1. rewrite !nth_lookup. by rewrite list_lookup_insert_ne by lia.
      - subst x1. apply nth_lookup_Some. apply list_lookup_insert_eq. lia. }
    pose proof (newton_length max_iter (compute_jacobi (to_int a) m)
                  (poly_diff (compute_jacobi (to_int a) m) 0) j x2) as Hlen.
    assert (Hj2 : (j < length x2)%nat) by lia.
    pose proof (newton_result max_iter (compute_jacobi (to_int a) m)
                  (poly_diff (compute_jacobi (to_int a) m) 0) j x2 Hj2) as Hres.
    pose proof (fun i => newton_frame max_iter (compute_jacobi (to_int a) m)
                  (poly_diff (compute_jacobi (to_int a) m) 0) j x2 i) as Hfr.
    fold x1. fold x2.
    destruct (newton max_iter _ _ j x2) as [x3 deltas].
    cbn [fst snd] in *.
    split; [congruence|]. split; [rewrite length_app; simpl; lia|].
    assert (Hkeep : forall i, i <> j -> nth i x3 0 = nth i x 0)
      by (intros i Hi; rewrite Hfr by exact Hi; by apply Hold).
    assert (Hg : forall i, (i <= j)%nat -> initial_guess x3 i m = initial_guess x i m).
    { intros i Hi. unfold initial_guess.
      destruct (Nat.ltb_spec 0 i); [|reflexivity]. rewrite Hkeep by lia. reflexivity. }
    intros i Hi. rewrite Hg by lia.
    destruct (decide (i = j)) as [->|Hne].
    + rewrite Hres, Hguess. f_equal. symmetry.
      apply nth_lookup_Some. rewrite lookup_app_r by lia.
      by rewrite Hruns, Nat.sub_diag.
    + rewrite Hkeep by exact Hne. rewrite Hent by lia. f_equal.
      rewrite !nth_lookup. rewrite lookup_app_l by lia. reflexivity.
Qed.
End PointsFacts.

(** ** The reference rules *)

Section ReferenceRuleFacts.
Context {libm : Libm} {P : Type} {poly : PolynomialOps P}.
Local Open Scope float_scope.

Lemma nth_map_lt {A B} (f : A -> B) (l : list A) i d d' :
  (i < length l)%nat -> nth i (map f l) d' = f (nth i l d).
Proof.
  intros Hi. destruct (lookup_lt_is_Some_2 l i Hi) as [y Hy].
  rewrite (nth_lookup_Some l i d y Hy). apply nth_lookup_Some.
  change (map f l) with (f <$> l). by rewrite list_lookup_fmap, Hy.
Qed.

Lemma well_formed_rows (A : ArrayXX) :
  (forall p, (p < rows A)%nat -> length (row A p) = cols A) -> well_formed A.
Proof.
  intros H. unfold well_formed. apply Forall_lookup_2. intros p r Hr.
  pose proof (lookup_lt_Some _ _ _ Hr) as Hp.
  specialize (H p Hp). unfold row in H. by rewrite (nth_lookup_Some _ _ _ _ Hr) in H.
Qed.

(** X1: [make_quadrature_line m] has [m] points and [m] weights; point
    [i] is 0.5 (x_i + 1) and weight [i] is w_i * 0.5, for the node x_i
    and weight w_i of the Gauss-Jacobi rule with a = 0. *)
Theorem make_quadrature_line_rule (m i : nat) :
  (i < m)%nat ->
  let '(ptx, wx) := compute_gauss_jacobi_rule 0.0 m in
  let '(pts, wts) := make_quadrature_line m in
  length pts = m /\ length wts = m
  /\ nth i pts 0 = 0.5 * (nth i ptx 0 + 1.0)
  /\ nth i wts 0 = nth i wx 0 * 0.5.
Proof.
  intros Hi. unfold make_quadrature_line.
  destruct (rule_lengths 0.0 m) as [Hp Hw].
  destruct (compute_gauss_jacobi_rule 0.0 m) as [ptx wx]. cbn [fst snd] in *.
  rewrite !length_map.
  repeat split; try assumption.
  - apply (nth_map_lt (fun x => 0.5 * (x + 1.0))). lia.
  - apply (nth_map_lt (fun w => w * 0.5)). lia.
Qed.

Lemma line_sizes m :
  length (fst (make_quadrature_line m)) = m
  /\ length (snd (make_quadrature_line m)) = m.
Proof.
  unfold make_quadrature_line. destruct (rule_lengths 0.0 m) as [Hp Hw].
  destruct (compute_gauss_jacobi_rule 0.0 m) as [ptx wx]. cbn [fst snd] in *.
  by rewrite !length_map.
Qed.

Lemma triangle_sizes m :
  well_formed (fst (make_quadrature_triangle_collapsed m))
  /\ rows (fst (make_quadrature_triangle_collapsed m)) = (m * m)%nat
  /\ cols (fst (make_quadrature_triangle_collapsed m)) = 2%nat
  /\ length (snd (make_quadrature_triangle_collapsed m)) = (m * m)%nat.
Proof.
  pose proof (triangle_collapsed_filled m) as H. cbv zeta in H.
  destruct (make_quadrature_triangle_collapsed m) as [pts wts].
  cbn [fst snd] in *. destruct H as (_ & Hrows & Hcols & Hlen & Hent).
  repeat split; try assumption.
  apply well_formed_rows. intros p Hp.
  destruct (Hent p) as [Hr _]; [lia|]. by rewrite Hr, Hcols.
Qed.

Lemma tensor3_index m i j k :
  (i < m)%nat -> (j < m)%nat -> (k < m)%nat ->
  (((i * m + j) * m + k) / m / m = i
   /\ ((i * m + j) * m + k) / m mod m = j
   /\ ((i * m + j) * m + k) mod m = k
   /\ (i * m + j) * m + k < m * m * m)%nat.
Proof.
  intros Hi Hj Hk.
  assert (H1 : (((i * m + j) * m + k) / m = i * m + j)%nat)
    by (symmetry; apply (Nat.div_unique _ _ _ k); lia).
  rewrite H1. repeat split.
  - symmetry. apply (Nat.div_unique _ _ _ j); lia.
  - symmetry. apply (Nat.mod_unique _ _ i); lia.
  - symmetry. apply (Nat.mod_unique _ _ (i * m + j)); lia.
  - assert ((i * m + j) * m + k < (i * m + j + 1) * m)%nat by lia.
    assert ((i * m + j + 1) * m <= m * m * m)%nat by nia. lia.
Qed.

Lemma tensor3_filled_step f g m c i j k idx pts wts :
  (i < m)%nat -> (j < m)%nat -> (k < m)%nat ->
  tensor3_filled f g m c ((i * m + j) * m + k) (idx, pts, wts) ->
  tensor3_filled f g m c ((i * m + j) * m + S k)
    (S idx, set_row pts idx (f i j k), <[idx := g i j k]> wts).
Proof.
  intros Hi Hj Hk (-> & Hrows & Hcols & Hlen & Hent).
  destruct (tensor3_index m i j k Hi Hj Hk) as (Hd1 & Hd2 & Hd3 & Hin).
  unfold tensor3_filled, rows, row, set_row in *. simpl.
  split; [lia|]. split; [by rewrite length_insert|].
  split; [exact Hcols|]. split; [by rewrite length_insert|].
  intros p Hp. destruct (decide (p = (i * m + j) * m + k)%nat) as [->|Hne].
  - rewrite Hd1, Hd2, Hd3. split; apply nth_lookup_Some;
      apply list_lookup_insert_eq; lia.
  - destruct (Hent p) as [Hr Hw]; [lia|]. rewrite <- Hr, <- Hw.
    split; rewrite !nth_lookup; by rewrite list_lookup_insert_ne.
Qed.

Lemma tensor3_loop f g m pts0 wts0 :
  rows pts0 = (m * m * m)%nat -> length wts0 = (m * m * m)%nat ->
  tensor3_filled f g m (cols pts0) (m * m * m)
    (for_loop m (fun i st =>
       for_loop m (fun j st =>
         for_loop m (fun k '(idx, pts, wts) =>
           (S idx, set_row pts idx (f i j k), <[idx := g i j k]> wts)) st) st)
       (O, pts0, wts0)).
Proof.
  intros Hrows Hlen.
  apply (for_loop_invariant
           (fun i st => tensor3_filled f g m (cols pts0) (i * m * m) st)).
  - repeat split; try assumption; lia.
  - intros i st Hi Hst.
    replace (S i * m * m)%nat with ((i * m + m) * m)%nat by lia.
    apply (for_loop_invariant
             (fun j st => tensor3_filled f g m (cols pts0) ((i * m + j) * m) st)).
    + replace ((i * m + 0) * m)%nat with (i * m * m)%nat by lia. exact Hst.
    + intros j st' Hj Hst'.
      replace ((i * m + S j) * m)%nat with ((i * m + j) * m + m)%nat by lia.
      apply (for_loop_invariant
               (fun k st => tensor3_filled f g m (cols pts0) ((i * m + j) * m + k) st)).
      * by rewrite Nat.add_0_r.
      * intros k [[idx pts] wts] Hk Hin. by apply tensor3_filled_step.
Qed.

Lemma tetrahedron_collapsed_filled m :
  let rx := compute_gauss_jacobi_rule 0.0 m in
  let ry := compute_gauss_jacobi_rule 1.0 m in
  let rz := compute_gauss_jacobi_rule 2.0 m in
  tensor3_filled
    (fun i j k =>
       [0.125 * (1.0 + nth i (fst rx) 0) * (1.0 - nth j (fst ry) 0)
        * (1.0 - nth k (fst rz) 0);
        0.25 * (1.0 + nth j (fst ry) 0) * (1.0 - nth k (fst rz) 0);
        0.5 * (1.0 + nth k (fst rz) 0)])
    (fun i j k => nth i (snd rx) 0 * nth j (snd ry) 0 * nth k (snd rz) 0
                  * 0.125 * 0.125)
    m 3 (m * m * m)
    (m * m * m, fst (make_quadrature_tetrahedron_collapsed m),
     snd (make_quadrature_tetrahedron_collapsed m))%nat.
Proof.
  intros rx ry rz. unfold make_quadrature_tetrahedron_collapsed.
  subst rx ry rz.
  destruct (compute_gauss_jacobi_rule 0.0 m) as [ptx wx].
  destruct (compute_gauss_jacobi_rule 1.0 m) as [pty wy].
  destruct (compute_gauss_jacobi_rule 2.0 m) as [ptz wz].
  cbn [fst snd].
  pose proof (tensor3_loop
    (fun i j k =>
       [0.125 * (1.0 + nth i ptx 0) * (1.0 - nth j pty 0) * (1.0 - nth k ptz 0);
        0.25 * (1.0 + nth j pty 0) * (1.0 - nth k ptz 0);
        0.5 * (1.0 + nth k ptz 0)])
    (fun i j k => nth i wx 0 * nth j wy 0 * nth k wz 0 * 0.125 * 0.125)
    m (alloc (m * m * m) 3) (replicate (m * m * m) 0)
    (rows_alloc _ _) (length_replicate _ _)) as H.
  cbv beta in H.
  match type of H with
  | tensor3_filled _ _ _ _ _ ?l =>
      match goal with
      | |- context [let '(_, _) := ?l' in _] => change l' with l
      end;
      destruct l as [[idx pts] wts]
  end.
  cbn [fst snd]. destruct H as (-> & H). by split.
Qed.


Lemma tetrahedron_sizes m :
  well_formed (fst (make_quadrature_tetrahedron_collapsed m))
  /\ rows (fst (make_quadrature_tetrahedron_collapsed m)) = (m * m * m)%nat
  /\ cols (fst (make_quadrature_tetrahedron_collapsed m)) = 3%nat
  /\ length (snd (make_quadrature_tetrahedron_collapsed m)) = (m * m * m)%nat.
Proof.
  pose proof (tetrahedron_collapsed_filled m) as H. cbv zeta in H.
  destruct (make_quadrature_tetrahedron_collapsed m) as [pts wts].
  cbn [fst snd] in *. destruct H as (_ & Hrows & Hcols & Hlen & Hent).
  repeat split; try assumption.
  apply well_formed_rows. intros p Hp.
  destruct (Hent p) as [Hr _]; [lia|]. by rewrite Hr, Hcols.
Qed.

End ReferenceRuleFacts.

(** ** The rule mapped onto a simplex *)

Section MappedRuleFacts.
Context {libm : Libm} {eigen : Eigen} {P : Type} {poly : PolynomialOps P}.
Local Open Scope float_scope.

Lemma reference_rule_lengths dim m :
  rows (fst (make_quadrature dim m)) = length (snd (make_quadrature dim m)).
Proof.
  unfold make_quadrature.
  destruct (dim =? 1)%Z; [|destruct (dim =? 2)%Z].
  - destruct (line_sizes m) as [Hp Hw].
    destruct (make_quadrature_line m) as [pts wts]. cbn [fst snd] in *.
    unfold rows, as_column. cbn [row_list]. rewrite length_map. congruence.
  - destruct (triangle_sizes m) as (_ & Hrows & _ & Hlen). congruence.
  - destruct (tetrahedron_sizes m) as (_ & Hrows & _ & Hlen). congruence.
Qed.

Lemma edge_matrix_shape simplex d :
  well_formed simplex -> (d < rows simplex)%nat ->
  well_formed (edge_matrix simplex d)
  /\ rows (edge_matrix simplex d) = d
  /\ cols (edge_matrix simplex d) = cols simplex.
Proof.
  intros Hwf Hd.
  assert (Hrows : rows (edge_matrix simplex d) = d)
    by (unfold rows, edge_matrix; cbn [row_list];
        by rewrite length_map, length_seq).
  split; [|by split].
  apply well_formed_rows. intros p Hp. rewrite Hrows in Hp.
  rewrite edge_matrix_row by exact Hp.
  change (cols (edge_matrix simplex d)) with (cols simplex).
  apply edge_length; [exact Hwf|lia].
Qed.

(** X5: on a well-formed simplex of a supported shape the simplex entry
    point returns one point and one weight per point of the reference
    rule; point [i] is vertex 0 plus reference point [i] times the edge
    matrix, with as many coordinate columns as the simplex, and weight
    [i] is reference weight [i] times the scale factor. *)
Theorem simplex_rule_mapped (simplex : ArrayXX) (m : nat) (out : list Event)
    (scale : double) (i : nat) :
  well_formed simplex ->
  simplex_scale simplex = Some scale ->
  (i < rows (fst (reference_rule simplex m)))%nat ->
  exists pts wts,
    fst (make_quadrature_simplex simplex m out) = Returned (pts, wts)
    /\ rows pts = rows (fst (reference_rule simplex m))
    /\ cols pts = cols simplex
    /\ length wts = rows pts
    /\ row pts i
       = zip_with PrimFloat.add (row simplex 0)
           (eigen_rowmul (row (fst (reference_rule simplex m)) i)
              (edge_matrix simplex (rows simplex - 1)))
    /\ nth i wts 0 = nth i (snd (reference_rule simplex m)) 0 * scale.
Proof.
  intros Hwf Hs Hi.
  rewrite (simplex_run_supported simplex m out scale Hwf Hs).
  pose proof (reference_rule_lengths (Z.of_nat (rows simplex) - 1) m) as Hlen.
  fold (reference_rule simplex m) in Hlen.
  destruct (reference_rule simplex m) as [Qpts Qwts]. cbn [fst snd] in *.
  eexists _, _. split; [reflexivity|].
  unfold mapped_points, rows, row in *. cbn [row_list cols].
  rewrite !length_map. repeat split; try congruence.
  - apply (nth_map_lt
             (fun p => zip_with PrimFloat.add (nth 0 (row_list simplex) [])
                         (eigen_rowmul p (edge_matrix simplex
                                            (length (row_list simplex) - 1))))).
    exact Hi.
  - apply (nth_map_lt (fun w => w * scale)). lia.
Qed.

(** X6: what the simplex entry point prints on a well-formed simplex.  A
    call that throws prints nothing.  Every other call first prints the
    edge matrix, which has dim rows of as many coordinates as the
    vertices; a call that stops on an assertion prints nothing more, and
    a call that returns prints the scale factor next and nothing else. *)
Theorem simplex_prints (simplex : ArrayXX) (m : nat) (out : list Event) :
  well_formed simplex ->
  let E := edge_matrix simplex (rows simplex - 1) in
  let run := make_quadrature_simplex simplex m out in
  (invalid_simplex simplex /\ (exists what, fst run = Thrown what) /\ snd run = out)
  \/ (~ invalid_simplex simplex
      /\ well_formed E /\ rows E = (rows simplex - 1)%nat /\ cols E = cols simplex
      /\ ((fst run = Aborted /\ snd run = out ++ [PrintBvec E])
          \/ (exists rule scale,
                fst run = Returned rule
                /\ simplex_scale simplex = Some scale
                /\ snd run = out ++ [PrintBvec E; PrintScale scale]))).
Proof.
  intros Hwf E run. subst E run.
  destruct (invalid_simplex_dec simplex) as [Hinv|Hvalid].
  - left. rewrite simplex_run_invalid by exact Hinv.
    split; [exact Hinv|]. split; [by eexists|reflexivity].
  - right. split; [exact Hvalid|].
    assert (Hd : (rows simplex - 1 < rows simplex)%nat)
      by (unfold invalid_simplex in Hvalid; lia).
    destruct (edge_matrix_shape simplex _ Hwf Hd) as (HwfE & HrE & HcE).
    repeat (split; [assumption|]).
    destruct (simplex_scale simplex) as [scale|] eqn:Hs.
    + right. rewrite (simplex_run_supported simplex m out scale Hwf Hs).
      by eexists _, scale.
    + left. by rewrite (simplex_run_unsupported simplex m out Hwf Hvalid Hs).
Qed.
End MappedRuleFacts.

(** ** The further properties on concrete inputs *)

Section FurtherEvaluation.
Import Reference.
#[local] Existing Instance libm_one_point.
#[local] Existing Instance eigen_in_order.
#[local] Existing Instance polynomial_ops.
Local Open Scope float_scope.

Lemma make_quadrature_line_rule_witness :
  let '(ptx, wx) := compute_gauss_jacobi_rule 0.0 3 in
  let '(pts, wts) := make_quadrature_line 3 in
  length pts = 3%nat /\ length wts = 3%nat
  /\ nth 2 pts 0 = 0.5 * (nth 2 ptx 0 + 1.0)
  /\ nth 2 wts 0 = nth 2 wx 0 * 0.5.
Proof. apply (make_quadrature_line_rule 3 2). lia. Defined.


Lemma gauss_jacobi_point_from_guess_witness :
  nth 0 (compute_gauss_jacobi_points 1.0 1) 0
  = fold_left PrimFloat.sub (nth 0 (newton_updates 1.0 1) [])
      (initial_guess (compute_gauss_jacobi_points 1.0 1) 0 1).
Proof. apply (gauss_jacobi_point_from_guess 1.0 1 0). lia. Defined.

Lemma simplex_rule_mapped_witness :
  exists pts wts,
    fst (quadrature_on unit_triangle 1 []) = Returned (pts, wts)
    /\ nth 0 wts 0
       = nth 0 (snd (reference_rule unit_triangle 1)) 0
         * eigen_determinant (edge_matrix unit_triangle 2).
Proof.
  destruct (simplex_rule_mapped unit_triangle 1 []
              (eigen_determinant (edge_matrix unit_triangle 2)) 0
              well_formed_unit_triangle)
    as (pts & wts & Hrun & _ & _ & _ & _ & Hw);
    [reflexivity|vm_compute; lia|].
  by exists pts, wts.
Defined.

Lemma simplex_prints_witness :
  exists rule scale,
    fst (quadrature_on unit_segment 1 []) = Returned rule
    /\ snd (quadrature_on unit_segment 1 [])
       = [PrintBvec (edge_matrix unit_segment 1); PrintScale scale].
Proof.
  destruct (simplex_prints unit_segment 1 [] well_formed_unit_segment)
    as [(Hinv & _)|(_ & _ & _ & _ & [[Habort _]|(rule & scale & Hr & _ & Hp)])].
  - exfalso. revert Hinv. unfold invalid_simplex. vm_compute.
    intros [H|[H|H]]; discriminate.
  - exfalso. revert Habort. vm_compute. discriminate.
  - by exists rule, scale.
Defined.
End FurtherEvaluation.

(** ** Inputs outside the amended ranges *)

Section RangeEvaluation.
Import Reference.
#[local] Existing Instance libm_table.
#[local] Existing Instance polynomial_ops.
Local Open Scope float_scope.



(** C5, counterexample: at a = 0.5 and m = 1 the call
    [compute_jacobi(a, m)] converts a to the [int] 0 and builds the
    polynomial x, where the Jacobi polynomial of weight exponent 0.5 is
    0.25 + 1.25 x; the returned weight is 2^1.5, not the weight of the
    formula.  And at m = 171 the explicit product is infinite, so that
    the factor 2^(a+1) tgamma(m + 1) / m! is not 2^(a+1). *)
Lemma half_weight_truncated :
  to_int 0.5 = 0%Z
  /\ compute_jacobi (to_int 0.5) 1 = [0; 1]
  /\ jacobi_of_weight 0.5 1 = [0.25; 1.25]
  /\ nth 0 (snd (compute_gauss_jacobi_rule 0.5 1)) 0 = 0x1.6a09e667f3bcdp+1
  /\ (nth 0 (snd (compute_gauss_jacobi_rule 0.5 1)) 0 =? claimed_weight 0.5 1 0)
     = false
  /\ factorial_product 171 = infinity
  /\ (c_pow 2.0 (0.0 + 1.0) * c_tgamma (of_int 171 + 1.0) / factorial_product 171
      =? c_pow 2.0 (0.0 + 1.0)) = false.
Proof. repeat split; vm_compute; reflexivity. Qed.
End RangeEvaluation.
